(** * Verification of [src/helper.ts]: listener registry and timed wait engine

    The TypeScript helpers [addEventListener], [removeEventListeners],
    [waitForEvent] and [waitWithTimeout] are embedded over a small model of
    the JavaScript runtime they run on: a heap of promise objects with
    their reaction lists, the queue of promise jobs (microtasks), a timer
    table, event emitters with their subscription lists, and a heap of
    mutable arrays.  Helpers are written in a monad of state and
    exceptions.  Closures of the source are defunctionalised: every arrow
    function of [helper.ts] is one constructor holding the variables it
    captures, and the code after an [await] is the reaction subscribed to
    the awaited promise.

    What happens around a call is a list of actions of the event loop:
    events emitted by other code, the caller's promise settling, promise
    jobs and timer tasks.  The theorems hold for all such runs.

    Scope of the model:
    - a JavaScript value is a primitive, a plain object or an [Error]
      instance; promises and other thenables (objects with a callable
      [then]) are not values of the model: a promise resolved with one
      would adopt its state instead of being fulfilled with it, so what
      is proved of a value passed to a resolving function is proved of
      the values that are not thenables;
    - numbers are integers: [NaN], the infinities and fractions are not
      numbers of the model, and the text of a number is given for the
      integers of magnitude at most 2^53, which print with all their
      decimal digits (theorems about a message that shows a number carry
      this bound);
    - the order in which an emitter keeps its subscriptions is that of
      Node's [EventEmitter]; the theorems about the registry are stated
      with counts and sublists, which do not depend on it;
    - predicates and foreign event handlers are pure: a predicate is a
      function of the event, they do not re-enter the emitter, and a
      foreign handler returns normally;
    - the meta events ['newListener'] and ['removeListener'] of the
      emitter are not modelled. *)

From Stdlib Require Import ZArith String List DecimalString.
From stdpp Require Import base decidable option list strings.
Import ListNotations.

Local Open Scope Z_scope.
Local Open Scope nat_scope.
Local Open Scope string_scope.
Local Open Scope list_scope.

(** ** JavaScript values *)

(** Modelled from the spec: [TimeoutError] is imported from [./errors],
    which is not part of the sources at hand; the spec calls it the
    **Timeout** error raised by the engine itself, an ordinary failure
    value, that is a subclass of [Error]. *)
Inductive error_class := ErrorClass | TimeoutErrorClass | TypeErrorClass.

(** The values handed around: primitives, plain objects and [Error]
    instances.  [VObject] is an object without a callable [then], and no
    constructor stands for a promise. *)
Inductive value :=
| VUndefined
| VBool (b : bool)
| VNum (n : Z)
| VStr (s : string)
| VObject (id : nat)
| VError (id : nat) (cls : error_class) (message : string).

#[global] Instance error_class_eq_dec : EqDecision error_class.
Proof. solve_decision. Defined.
#[global] Instance value_eq_dec : EqDecision value.
Proof. solve_decision. Defined.

(** [x instanceof Error] *)
Definition instanceof_Error (v : value) : bool :=
  match v with VError _ _ _ => true | _ => false end.

(** ToBoolean, as used by [if (x)] and [!x]. *)
Definition truthy (v : value) : bool :=
  match v with
  | VUndefined => false
  | VBool b => b
  | VNum n => negb (Z.eqb n 0)
  | VStr s => negb (String.eqb s "")
  | VObject _ | VError _ _ _ => true
  end.

(** [`${n}`] for an integer [n] with [|n| <= 2^53]: all its decimal
    digits, after a minus sign when it is negative.  Beyond that bound
    the language prints the shortest digits that read back as the same
    number, padded with zeros, and an exponent from 10^21 on, which this
    function does not follow. *)
Definition number_to_string (n : Z) : string :=
  NilZero.string_of_int (Z.to_int n).

(** Event names are [string | symbol]. *)
Inductive event_name :=
| EvString (s : string)
| EvSymbol (id : nat) (description : string).

#[global] Instance event_name_eq_dec : EqDecision event_name.
Proof. solve_decision. Defined.

(** [String(eventName)] *)
Definition String_of (n : event_name) : string :=
  match n with
  | EvString s => s
  | EvSymbol _ d => "Symbol(" +:+ d +:+ ")"
  end.

Example number_to_string_30 : number_to_string 30 = "30".
Proof. reflexivity. Qed.
Example String_of_symbol : String_of (EvSymbol 1 "close") = "Symbol(close)".
Proof. reflexivity. Qed.

(** ** Completions and the runtime state *)

(** A call either returns or throws a value. *)
Inductive result (A : Type) :=
| Ok (a : A)
| Throw (e : value).
Arguments Ok {A} a.
Arguments Throw {A} e.

(** The settled state of a promise. *)
Inductive outcome :=
| Fulfilled (v : value)
| Rejected (e : value).

#[global] Instance outcome_eq_dec : EqDecision outcome.
Proof. solve_decision. Defined.

(** References into the heaps of the runtime are indices. *)
Abbreviation pid := nat (only parsing).     (* reference to a promise object *)
Abbreviation eid := nat (only parsing).     (* reference to an event emitter *)
Abbreviation tid := nat (only parsing).     (* timer handle returned by setTimeout *)
Abbreviation aref := nat (only parsing).    (* reference to an array object *)
Abbreviation fn_ref := nat (only parsing).  (* reference to a function of the caller *)

(** Event handlers.  [WaitForEventHandler] is the arrow function of
    [waitForEvent] (helper.ts:114-122); it captures [predicate],
    [resolveCallback] and [rejectCallback], the latter two being the
    resolving functions of [promise]. *)
Inductive listener_fn :=
| ForeignHandler (k : nat)
| WaitForEventHandler (predicate : fn_ref) (promise : pid).

#[global] Instance listener_fn_eq_dec : EqDecision listener_fn.
Proof. solve_decision. Defined.

(** [type RegisteredListener = { emitter, eventName, handler }] *)
Record RegisteredListener := {
  emitter : eid;
  eventName : event_name;
  handler : listener_fn
}.

#[global] Instance RegisteredListener_eq_dec : EqDecision RegisteredListener.
Proof. solve_decision. Defined.

(** Timer callbacks: the arrow functions handed to [setTimeout] at
    helper.ts:124-126 and helper.ts:150. *)
Inductive timer_callback :=
| WaitForEventTimeout (promise : pid) (name : event_name)
| WaitWithTimeoutTimeout (timeoutPromise : pid) (timeoutError : value).

(** Promise reactions, one per way the source subscribes to a promise. *)
Inductive reaction :=
| RaceElement (race : pid)
    (* Promise.race: element.then(resolve_race, reject_race) *)
| ThenCleanup (derived : pid) (listener : RegisteredListener) (eventTimeout : option tid)
    (* .then(r => { cleanup(); return r; }, e => { cleanup(); throw e; }) *)
| AwaitWaitForEvent (async_result : pid)
    (* the rest of waitForEvent after its await (helper.ts:139-141) *)
| AwaitWaitWithTimeout (async_result : pid) (timeoutTimer : option tid)
    (* the rest of waitWithTimeout after its await: return, finally *)
| AwaitDirectly (async_result : pid).
    (* the rest of [async () => await p] after its await; not a closure of
       helper.ts: the reference [waitWithTimeout] is compared with *)

Record promise := {
  p_state : option outcome;          (* None: pending *)
  p_reactions : list reaction        (* subscribed while pending *)
}.

(** Calls made on the collaborators, in program order. *)
Inductive effect :=
| Eff_on (e : eid) (n : event_name) (h : listener_fn)
| Eff_removeListener (e : eid) (n : event_name) (h : listener_fn)
| Eff_setTimeout (t : tid) (ms : Z)
| Eff_clearTimeout (t : option tid).

#[global] Instance effect_eq_dec : EqDecision effect.
Proof. solve_decision. Defined.

Record state := {
  promises : list promise;
  emitters : list (list (event_name * listener_fn));
  arrays : list (list RegisteredListener);
  timers : list (option timer_callback);
  microtasks : list (reaction * outcome);
  next_object : nat;
  log : list effect
}.

Definition set_promises (f : list promise -> list promise) (s : state) : state :=
  {| promises := f (promises s); emitters := emitters s; arrays := arrays s;
     timers := timers s; microtasks := microtasks s;
     next_object := next_object s; log := log s |}.
Definition set_emitters (f : list (list (event_name * listener_fn)) ->
                             list (list (event_name * listener_fn))) (s : state) : state :=
  {| promises := promises s; emitters := f (emitters s); arrays := arrays s;
     timers := timers s; microtasks := microtasks s;
     next_object := next_object s; log := log s |}.
Definition set_arrays (f : list (list RegisteredListener) ->
                           list (list RegisteredListener)) (s : state) : state :=
  {| promises := promises s; emitters := emitters s; arrays := f (arrays s);
     timers := timers s; microtasks := microtasks s;
     next_object := next_object s; log := log s |}.
Definition set_timers (f : list (option timer_callback) ->
                           list (option timer_callback)) (s : state) : state :=
  {| promises := promises s; emitters := emitters s; arrays := arrays s;
     timers := f (timers s); microtasks := microtasks s;
     next_object := next_object s; log := log s |}.
Definition set_microtasks (f : list (reaction * outcome) ->
                               list (reaction * outcome)) (s : state) : state :=
  {| promises := promises s; emitters := emitters s; arrays := arrays s;
     timers := timers s; microtasks := f (microtasks s);
     next_object := next_object s; log := log s |}.
Definition set_next_object (f : nat -> nat) (s : state) : state :=
  {| promises := promises s; emitters := emitters s; arrays := arrays s;
     timers := timers s; microtasks := microtasks s;
     next_object := f (next_object s); log := log s |}.
Definition set_log (f : list effect -> list effect) (s : state) : state :=
  {| promises := promises s; emitters := emitters s; arrays := arrays s;
     timers := timers s; microtasks := microtasks s;
     next_object := next_object s; log := f (log s) |}.

(** ** The monad of JavaScript code: state and exceptions *)

Definition M (A : Type) : Type := state -> result A * state.

Definition ret {A} (a : A) : M A := fun s => (Ok a, s).
Definition throw {A} (e : value) : M A := fun s => (Throw e, s).
Definition bind {A B} (c : M A) (k : A -> M B) : M B :=
  fun s => match c s with
           | (Ok a, s') => k a s'
           | (Throw e, s') => (Throw e, s')
           end.
(** [try { c } catch (e) { h e }] *)
Definition try_catch {A} (c : M A) (h : value -> M A) : M A :=
  fun s => match c s with
           | (Ok a, s') => (Ok a, s')
           | (Throw e, s') => h e s'
           end.
(** [try { c } finally { f }] *)
Definition try_finally {A} (c : M A) (f : M unit) : M A :=
  fun s => match c s with
           | (r, s') => match f s' with
                        | (Ok _, s'') => (r, s'')
                        | (Throw e, s'') => (Throw e, s'')
                        end
           end.
Definition modify (f : state -> state) : M unit := fun s => (Ok tt, f s).
Definition get {A} (f : state -> A) : M A := fun s => (Ok (f s), s).

Declare Scope js_scope.
Delimit Scope js_scope with js.
Notation "x <- c ;; k" := (bind c (fun x => k))
  (at level 100, c at next level, right associativity) : js_scope.
Notation "c ;; k" := (bind c (fun _ => k))
  (at level 100, right associativity) : js_scope.
Local Open Scope js_scope.

(** [for (const x of l) body x] over a snapshot of the elements. *)
Fixpoint for_of {A} (l : list A) (body : A -> M unit) : M unit :=
  match l with
  | [] => ret tt
  | x :: l' => body x ;; for_of l' body
  end.

(** [new C(message)] for an error class: a fresh object. *)
Definition new_error (cls : error_class) (message : string) : M value :=
  id <- get next_object ;;
  modify (set_next_object S) ;;
  ret (VError id cls message).

(** Dereferencing a reference that designates no object of the heap:
    a [TypeError] with the message the engine gives (the wording is
    V8's; nothing below depends on it). *)
Definition deref {A} (message : string) (o : option A) : M A :=
  match o with
  | Some a => ret a
  | None => e <- new_error TypeErrorClass message ;;
            throw e
  end.

(** [x.name] on [undefined]. *)
Definition no_property (name : string) : string :=
  "Cannot read properties of undefined (reading '" +:+ name +:+ "')".

(** ** Event emitters *)

(** Remove the most recently added occurrence of [x]. *)
Fixpoint remove_last {A} `{EqDecision A} (x : A) (l : list A) : list A :=
  match l with
  | [] => []
  | y :: l' =>
      if bool_decide (x ∈ l') then y :: remove_last x l'
      else if bool_decide (x = y) then l' else y :: l'
  end.

Example remove_last_latest : remove_last 1 [1; 2; 1; 3] = [1; 2; 3].
Proof. reflexivity. Qed.
Example remove_last_absent : remove_last 4 [1; 2] = [1; 2].
Proof. reflexivity. Qed.

(** Modelled from the spec: the Event Source ([platform.EventEmitterType],
    whose module is not part of the sources at hand) supports
    subscribe(eventName, handler) and unsubscribe(eventName, handler) and
    must tolerate unsubscribing a handler that is already removed: [on]
    adds one subscription, [removeListener] takes one matching
    subscription away and returns normally when there is none.  Where
    [on] puts the subscription and which of several equal ones
    [removeListener] takes the spec does not say; the model follows
    Node's [EventEmitter], the emitter of the platform: a list in
    registration order, [on] appends, [removeListener] drops the latest
    matching subscription. *)
Definition emitter_on (e : eid) (n : event_name) (h : listener_fn) : M unit :=
  es <- get emitters ;;
  subs <- deref (no_property "on") (es !! e) ;;
  modify (set_emitters (<[e := subs ++ [(n, h)]]>)) ;;
  modify (set_log (fun l => l ++ [Eff_on e n h])).

Definition emitter_removeListener (e : eid) (n : event_name) (h : listener_fn) : M unit :=
  es <- get emitters ;;
  subs <- deref (no_property "removeListener") (es !! e) ;;
  modify (set_emitters (<[e := remove_last (n, h) subs]>)) ;;
  modify (set_log (fun l => l ++ [Eff_removeListener e n h])).

(** The handlers [emit] calls for an event: a snapshot, in registration
    order, of the subscriptions under that name. *)
Definition listeners_of (n : event_name) (subs : list (event_name * listener_fn)) : list listener_fn :=
  map snd (filter (fun x => x.1 = n) subs).

(** ** Arrays *)

Definition new_array (l : list RegisteredListener) : M aref :=
  r <- get (fun s => length (arrays s)) ;;
  modify (set_arrays (fun a => a ++ [l])) ;;
  ret r.

Definition read_array (r : aref) : M (list RegisteredListener) :=
  a <- get arrays ;;
  deref "listeners is not iterable" (a !! r).

(** [a.splice(start, deleteCount)]: removes the elements in place. *)
Definition splice (r : aref) (start deleteCount : nat) : M unit :=
  l <- read_array r ;;
  modify (set_arrays (<[r := take start l ++ drop (start + deleteCount) l]>)).

(** ** Listener registry (helper.ts:75-91) *)

Definition addEventListener (emitter : eid) (eventName : event_name)
    (handler : listener_fn) : M RegisteredListener :=
  emitter_on emitter eventName handler ;;
  ret (Build_RegisteredListener emitter eventName handler).

Definition removeEventListeners (listeners : aref) : M unit :=
  ls <- read_array listeners ;;
  for_of ls (fun listener =>
    emitter_removeListener (emitter listener) (eventName listener) (handler listener)) ;;
  l <- read_array listeners ;;
  splice listeners 0 (length l).

(** ** Promises *)

Definition new_promise : M pid :=
  p <- get (fun s => length (promises s)) ;;
  modify (set_promises (fun ps => ps ++ [{| p_state := None; p_reactions := [] |}])) ;;
  ret p.

(** The resolving functions of a promise: the first call settles it and
    queues one job per subscribed reaction; later calls do nothing.
    [resolve] fulfils the promise with its argument, which is what the
    language does for every argument that is not a thenable, that is for
    every [value]. *)
Definition settle (p : pid) (o : outcome) : M unit :=
  ps <- get promises ;;
  match ps !! p with
  | Some {| p_state := None; p_reactions := rs |} =>
      modify (set_promises (<[p := {| p_state := Some o; p_reactions := [] |}]>)) ;;
      modify (set_microtasks (fun q => q ++ map (fun r => (r, o)) rs))
  | _ => ret tt
  end.

Definition resolve (p : pid) (v : value) : M unit := settle p (Fulfilled v).
Definition reject (p : pid) (e : value) : M unit := settle p (Rejected e).

(** Subscribing a reaction: stored while the promise is pending, queued
    as a job at once when it is already settled. *)
Definition perform_then (p : pid) (r : reaction) : M unit :=
  ps <- get promises ;;
  match ps !! p with
  | Some {| p_state := None; p_reactions := rs |} =>
      modify (set_promises (<[p := {| p_state := None; p_reactions := rs ++ [r] |}]>))
  | Some {| p_state := Some o; p_reactions := _ |} =>
      modify (set_microtasks (fun q => q ++ [(r, o)]))
  | None => ret tt
  end.

(** [p.then(onFulfilled, onRejected)], the pair of callbacks being given
    by the reaction they form. *)
Definition Promise_then (p : pid) (mk : pid -> reaction) : M pid :=
  derived <- new_promise ;;
  perform_then p (mk derived) ;;
  ret derived.

(** [Promise.race(elements)] *)
Definition Promise_race (elements : list pid) : M pid :=
  race <- new_promise ;;
  for_of elements (fun p => perform_then p (RaceElement race)) ;;
  ret race.

(** An [async] function: its promise is rejected when the body throws
    before its first [await]. *)
Definition async_function (body : pid -> M unit) : M pid :=
  async_result <- new_promise ;;
  try_catch (body async_result) (fun e => reject async_result e) ;;
  ret async_result.

(** The value of [await p] once [p] has settled. *)
Definition awaited (o : outcome) : M value :=
  match o with
  | Fulfilled v => ret v
  | Rejected e => throw e
  end.

(** Runs a callback and turns its completion into the outcome of the
    promise that depends on it. *)
Definition completion_of (c : M value) : M outcome :=
  fun s => match c s with
           | (Ok v, s') => (Ok (Fulfilled v), s')
           | (Throw e, s') => (Ok (Rejected e), s')
           end.

(** ** Timers *)

Definition setTimeout (cb : timer_callback) (ms : Z) : M tid :=
  t <- get (fun s => length (timers s)) ;;
  modify (set_timers (fun ts => ts ++ [Some cb])) ;;
  modify (set_log (fun l => l ++ [Eff_setTimeout t ms])) ;;
  ret t.

(** [clearTimeout(t)]; [t] may be [undefined] or [null], then nothing is
    disarmed. *)
Definition clearTimeout (t : option tid) : M unit :=
  match t with
  | Some i => modify (set_timers (<[i := None]>))
  | None => ret tt
  end ;;
  modify (set_log (fun l => l ++ [Eff_clearTimeout t])).

(** ** Timed wait engine (helper.ts:101-157) *)

Section Engine.

(** Calling a function value supplied by the caller (a predicate): it
    returns a value or throws, and has no effect on the runtime state. *)
Variable call_function : fn_ref -> value -> result value.

Definition call (f : fn_ref) (arg : value) : M value :=
  fun s => (call_function f arg, s).

(** The body of an event handler.  For the handler of [waitForEvent]:
    [try { if (!predicate(event)) return; resolveCallback(event); }
     catch (e) { rejectCallback(e); }] *)
Definition call_listener (h : listener_fn) (event : value) : M unit :=
  match h with
  | ForeignHandler _ => ret tt
  | WaitForEventHandler predicate promise =>
      try_catch
        (r <- call predicate event ;;
         if negb (truthy r) then ret tt
         else resolve promise event)
        (fun e => reject promise e)
  end.

(** [emitter.emit(n, event)] *)
Definition emitter_emit (e : eid) (n : event_name) (event : value) : M unit :=
  es <- get emitters ;;
  subs <- deref (no_property "emit") (es !! e) ;;
  for_of (listeners_of n subs) (fun h => call_listener h event).

(** The timer callbacks. *)
Definition run_timer (cb : timer_callback) : M unit :=
  match cb with
  | WaitForEventTimeout promise eventName =>
      e <- new_error TimeoutErrorClass
             ("Timeout exceeded while waiting for " +:+ String_of eventName) ;;
      reject promise e
  | WaitWithTimeoutTimeout timeoutPromise timeoutError =>
      reject timeoutPromise timeoutError
  end.

(** [function cleanup()] of [waitForEvent] (helper.ts:128-131) *)
Definition cleanup (listener : RegisteredListener) (eventTimeout : option tid) : M unit :=
  a <- new_array [listener] ;;
  removeEventListeners a ;;
  clearTimeout eventTimeout.

(** A promise job: the reaction [r] run on the outcome [o] of the promise
    it was subscribed to. *)
Definition run_reaction (r : reaction) (o : outcome) : M unit :=
  match r with
  | RaceElement race => settle race o
  | ThenCleanup derived listener eventTimeout =>
      o' <- completion_of
              match o with
              | Fulfilled r => cleanup listener eventTimeout ;; ret r
              | Rejected e => cleanup listener eventTimeout ;; throw e
              end ;;
      settle derived o'
  | AwaitWaitForEvent async_result =>
      o' <- completion_of
              (result <- awaited o ;;
               if instanceof_Error result then throw result
               else ret result) ;;
      settle async_result o'
  | AwaitWaitWithTimeout async_result timeoutTimer =>
      o' <- completion_of
              (try_finally (awaited o)
                 (if timeoutTimer is Some _ then clearTimeout timeoutTimer
                  else ret tt)) ;;
      settle async_result o'
  | AwaitDirectly async_result =>
      o' <- completion_of (awaited o) ;;
      settle async_result o'
  end.

Definition waitForEvent (emitter : eid) (eventName : event_name) (predicate : fn_ref)
    (timeout : Z) (abortPromise : pid) : M pid :=
  async_function (fun async_result =>
    promise <- new_promise ;;
    listener <- addEventListener emitter eventName
                  (WaitForEventHandler predicate promise) ;;
    eventTimeout <- (if truthy (VNum timeout)
                     then t <- setTimeout (WaitForEventTimeout promise eventName) timeout ;;
                          ret (Some t)
                     else ret None) ;;
    race <- Promise_race [promise; abortPromise] ;;
    chained <- Promise_then race (fun derived => ThenCleanup derived listener eventTimeout) ;;
    perform_then chained (AwaitWaitForEvent async_result)).

Definition waitWithTimeout (promise : pid) (taskName : string) (timeout : Z) : M pid :=
  async_function (fun async_result =>
    timeoutError <- new_error TimeoutErrorClass
                      ("waiting for " +:+ taskName +:+ " failed: timeout "
                       +:+ number_to_string timeout +:+ "ms exceeded") ;;
    timeoutPromise <- new_promise ;;
    timeoutTimer <- (if truthy (VNum timeout)
                     then t <- setTimeout (WaitWithTimeoutTimeout timeoutPromise timeoutError)
                                 timeout ;;
                          ret (Some t)
                     else ret None) ;;
    race <- Promise_race [promise; timeoutPromise] ;;
    perform_then race (AwaitWaitWithTimeout async_result timeoutTimer)).

(** Awaiting a promise directly, [(async () => await promise)()]: what
    the spec compares [waitWithTimeout(promise, name, 0)] with.  This
    definition follows the words of the spec, not a function of
    helper.ts. *)
Definition await_directly (promise : pid) : M pid :=
  async_function (fun async_result =>
    perform_then promise (AwaitDirectly async_result)).

(** ** The event loop *)

(** What can happen while a call is in flight.  [Emit] and
    [ExternalSettles] are synchronous calls made by other code, in a task
    of its own or in a promise job of its own; [Microtask] runs the
    oldest queued promise job; [TimerFires] is the task of an armed
    timer, taken only when no promise job is queued. *)
Inductive action :=
| Emit (e : eid) (n : event_name) (event : value)
| ExternalSettles (o : outcome)
| Microtask
| TimerFires (t : tid).

(** The promise owned by the caller: the abort signal of [waitForEvent],
    the computation handed to [waitWithTimeout]. *)
Variable external : pid.

Definition exec (c : M unit) (s : state) : state := snd (c s).

(** One action of the event loop.  An action that is not enabled leaves
    the state as it is: an event on a reference that designates no
    emitter, a promise job when none is queued, the task of a timer that
    is not armed or that has to wait because promise jobs are queued. *)
Definition step (a : action) (s : state) : state :=
  match a with
  | Emit e n event =>
      if emitters s !! e is Some _ then exec (emitter_emit e n event) s else s
  | ExternalSettles o => exec (settle external o) s
  | Microtask =>
      match microtasks s with
      | [] => s
      | (r, o) :: q => exec (run_reaction r o) (set_microtasks (fun _ => q) s)
      end
  | TimerFires t =>
      match microtasks s, timers s !! t with
      | [], Some (Some cb) => exec (run_timer cb) (set_timers (<[t := None]>) s)
      | _, _ => s
      end
  end.

Fixpoint run (tr : list action) (s : state) : state :=
  match tr with
  | [] => s
  | a :: tr' => run tr' (step a s)
  end.

End Engine.

#[local] Arguments set_promises _ _ /.
#[local] Arguments set_emitters _ _ /.
#[local] Arguments set_arrays _ _ /.
#[local] Arguments set_timers _ _ /.
#[local] Arguments set_microtasks _ _ /.
#[local] Arguments set_next_object _ _ /.
#[local] Arguments set_log _ _ /.

(** ** Worlds *)

(** The runtime before a call: one promise owned by the caller (promise
    0, pending or already settled), one emitter (emitter 0) with the
    subscriptions of other parties, no timer, no queued job. *)
Definition foreign_subscriptions (foreign : list (event_name * nat))
  : list (event_name * listener_fn) :=
  map (fun x => (x.1, ForeignHandler x.2)) foreign.

Definition boot (external0 : option outcome) (foreign : list (event_name * nat))
    (n0 : nat) : state :=
  {| promises := [{| p_state := external0; p_reactions := [] |}];
     emitters := [foreign_subscriptions foreign];
     arrays := []; timers := []; microtasks := [];
     next_object := n0; log := [] |}.

Definition pending (rs : list reaction) : promise :=
  {| p_state := None; p_reactions := rs |}.
Definition settled (o : outcome) : promise :=
  {| p_state := Some o; p_reactions := [] |}.

(** What an observer of promise [p] sees; promise 1 is the one the
    [async] function returned to its caller. *)
Definition promise_state (p : pid) (s : state) : option outcome :=
  promises s !! p ≫= p_state.
Definition result_of (s : state) : option outcome := promise_state 1 s.

Definition is_removal (x : effect) : bool :=
  match x with Eff_removeListener _ _ _ => true | _ => false end.
Definition is_clear (x : effect) : bool :=
  match x with Eff_clearTimeout _ => true | _ => false end.
(** How many times [removeListener] and [clearTimeout] have been called. *)
Definition removals (l : list effect) : nat := length (List.filter is_removal l).
Definition clears (l : list effect) : nat := length (List.filter is_clear l).

(** ** Symbolic evaluation and basic facts *)

Ltac js_unfold :=
  unfold exec, bind, ret, throw, get, modify, try_catch, try_finally,
    completion_of, awaited, deref, new_array, read_array, splice,
    removeEventListeners, emitter_removeListener, emitter_on, cleanup,
    settle, resolve, reject, perform_then, clearTimeout, setTimeout,
    new_error, new_promise, run_reaction, run_timer, for_of.
Ltac js := repeat (progress (cbn; js_unfold; cbn)).

Lemma remove_last_snoc {A} `{EqDecision A} (x : A) (l : list A) :
  remove_last x (l ++ [x]) = l.
Proof.
  induction l as [|y l IH]; cbn.
  - rewrite bool_decide_eq_false_2 by apply not_elem_of_nil.
    rewrite bool_decide_eq_true_2; done.
  - rewrite bool_decide_eq_true_2.
    + by rewrite IH.
    + apply elem_of_app. right. by apply list_elem_of_singleton.
Qed.

Lemma for_of_app {A} (l1 l2 : list A) (body : A -> M unit) s :
  for_of (l1 ++ l2) body s = (for_of l1 body ;; for_of l2 body) s.
Proof.
  revert s. induction l1 as [|x l1 IH]; intros s; cbn; [done|].
  unfold bind in *. destruct (body x s) as [[[]|e] s']; [|done].
  apply IH.
Qed.

(** ** Promises are settled at most once *)

(** A computation that never changes the state of a settled promise. *)
Definition keeps_settled {A} (c : M A) : Prop :=
  forall s p o, promise_state p s = Some o -> promise_state p (c s).2 = Some o.

Lemma keeps_ret {A} (a : A) : keeps_settled (ret a).
Proof. by intros s p o H. Qed.
Lemma keeps_throw {A} e : keeps_settled (@throw A e).
Proof. by intros s p o H. Qed.
Lemma keeps_get {A} (f : state -> A) : keeps_settled (get f).
Proof. by intros s p o H. Qed.
Lemma keeps_modify f :
  (forall s, promises (f s) = promises s) -> keeps_settled (modify f).
Proof. intros Hf s p o H. unfold promise_state, modify. cbn. by rewrite Hf. Qed.
Lemma keeps_bind {A B} (c : M A) (k : A -> M B) :
  keeps_settled c -> (forall a, keeps_settled (k a)) -> keeps_settled (bind c k).
Proof.
  intros Hc Hk s p o H. unfold bind. specialize (Hc s p o H).
  destruct (c s) as [[a|e] s']; cbn in *; [by apply Hk|done].
Qed.
Lemma keeps_try_catch {A} (c : M A) h :
  keeps_settled c -> (forall e, keeps_settled (h e)) -> keeps_settled (try_catch c h).
Proof.
  intros Hc Hh s p o H. unfold try_catch. specialize (Hc s p o H).
  destruct (c s) as [[a|e] s']; cbn in *; [done|by apply Hh].
Qed.
Lemma keeps_try_finally {A} (c : M A) f :
  keeps_settled c -> keeps_settled f -> keeps_settled (try_finally c f).
Proof.
  intros Hc Hf s p o H. unfold try_finally. specialize (Hc s p o H).
  destruct (c s) as [r s']; cbn in *. specialize (Hf s' p o Hc).
  by destruct (f s') as [[[]|e] s''].
Qed.
Lemma keeps_completion_of c : keeps_settled c -> keeps_settled (completion_of c).
Proof.
  intros Hc s p o H. unfold completion_of. specialize (Hc s p o H).
  by destruct (c s) as [[a|e] s'].
Qed.
Lemma keeps_for_of {A} (l : list A) body :
  (forall x, keeps_settled (body x)) -> keeps_settled (for_of l body).
Proof.
  intros Hb. induction l as [|x l IH]; cbn; [apply keeps_ret|].
  apply keeps_bind; [apply Hb|done].
Qed.
Lemma keeps_settle p o : keeps_settled (settle p o).
Proof.
  intros s p' o' H. unfold settle, bind, get. cbn.
  destruct (promises s !! p) as [[[x|] rs]|] eqn:Hp; cbn; try done.
  unfold promise_state in *. cbn.
  destruct (decide (p = p')) as [->|Hne].
  - rewrite Hp in H. done.
  - by rewrite list_lookup_insert_ne.
Qed.
Lemma keeps_perform_then p r : keeps_settled (perform_then p r).
Proof.
  intros s p' o' H. unfold perform_then, bind, get. cbn.
  destruct (promises s !! p) as [[[x|] rs]|] eqn:Hp; cbn; try done.
  unfold promise_state in *. cbn.
  destruct (decide (p = p')) as [->|Hne].
  - rewrite Hp in H. done.
  - by rewrite list_lookup_insert_ne.
Qed.
Lemma keeps_new_promise : keeps_settled new_promise.
Proof.
  intros s p o H. unfold new_promise, bind, get, modify, ret, promise_state in *. cbn.
  destruct (promises s !! p) as [x|] eqn:Hp; [|done].
  by rewrite (lookup_app_l_Some _ _ _ _ Hp).
Qed.

Create HintDb keeps.

Ltac keeps_step :=
  first
    [ apply keeps_ret | apply keeps_throw | apply keeps_get
    | apply keeps_settle | apply keeps_perform_then | apply keeps_new_promise
    | apply keeps_modify; by intros []
    | solve [auto with keeps]
    | apply keeps_bind | apply keeps_try_catch | apply keeps_try_finally
    | apply keeps_completion_of | apply keeps_for_of
    | match goal with
      | |- keeps_settled (match ?x with _ => _ end) => destruct x
      end
    | intro ].
Ltac keeps_tac := repeat keeps_step.

Lemma keeps_new_error cls msg : keeps_settled (new_error cls msg).
Proof. unfold new_error. keeps_tac. Qed.
#[local] Hint Resolve keeps_new_error : keeps.
Lemma keeps_deref {A} what (o : option A) : keeps_settled (deref what o).
Proof. unfold deref. keeps_tac. Qed.
#[local] Hint Resolve keeps_deref : keeps.
Lemma keeps_removeEventListeners a : keeps_settled (removeEventListeners a).
Proof.
  unfold removeEventListeners, read_array, splice, read_array, emitter_removeListener.
  keeps_tac.
Qed.
Lemma keeps_clearTimeout t : keeps_settled (clearTimeout t).
Proof. unfold clearTimeout. keeps_tac. Qed.
#[local] Hint Resolve keeps_removeEventListeners keeps_clearTimeout : keeps.
Lemma keeps_cleanup l t : keeps_settled (cleanup l t).
Proof. unfold cleanup, new_array. keeps_tac. Qed.
#[local] Hint Resolve keeps_cleanup : keeps.

Section WriteOnce.
Variable call_function : fn_ref -> value -> result value.
Variable external : pid.

Lemma keeps_run_reaction r o : keeps_settled (run_reaction r o).
Proof. destruct r; cbn; unfold awaited; keeps_tac. Qed.

Lemma keeps_call_listener h event : keeps_settled (call_listener call_function h event).
Proof.
  destruct h; cbn; unfold resolve, reject, call; keeps_tac.
Qed.

Lemma keeps_emitter_emit e n event :
  keeps_settled (emitter_emit call_function e n event).
Proof.
  unfold emitter_emit. pose proof keeps_call_listener. keeps_tac.
Qed.

Lemma keeps_run_timer cb : keeps_settled (run_timer cb).
Proof. destruct cb; cbn; unfold reject; keeps_tac. Qed.

Lemma step_keeps_settled a s p o :
  promise_state p s = Some o ->
  promise_state p (step call_function external a s) = Some o.
Proof.
  intros H. destruct a as [e n event|o'| |t]; cbn.
  - destruct (emitters s !! e); [|done]. by apply keeps_emitter_emit.
  - by apply keeps_settle.
  - destruct (microtasks s) as [|[r o'] q]; [done|]. by apply keeps_run_reaction.
  - destruct (microtasks s); [|done].
    destruct (timers s !! t) as [[cb|]|]; try done. by apply keeps_run_timer.
Qed.

Lemma run_keeps_settled tr s p o :
  promise_state p s = Some o ->
  promise_state p (run call_function external tr s) = Some o.
Proof.
  revert s. induction tr as [|a tr IH]; intros s H; cbn; [done|].
  by apply IH, step_keeps_settled.
Qed.

Lemma run_app tr tr' s :
  run call_function external (tr ++ tr') s =
  run call_function external tr' (run call_function external tr s).
Proof. revert s. induction tr as [|a tr IH]; intros s; cbn; [done|apply IH]. Qed.

End WriteOnce.

(** ** Sources of a race *)

(** A source of the race: still pending with its subscription, or
    settled with it consumed. *)
Definition source_ok (x : promise) : Prop :=
  x = pending [RaceElement 3] \/ exists o, x = settled o.
Definition race_jobs (q : list (reaction * outcome)) : Prop :=
  Forall (fun j => j.1 = RaceElement 3) q.
Lemma source_ok_settled o : source_ok (settled o).
Proof. right. by exists o. Qed.
Lemma source_ok_pending : source_ok (pending [RaceElement 3]).
Proof. by left. Qed.
Lemma race_jobs_snoc q o : race_jobs q -> race_jobs (q ++ [(RaceElement 3, o)]).
Proof. intros H. apply Forall_app_2; [done|]. by repeat constructor. Qed.
Lemma race_jobs_nil : race_jobs [].
Proof. constructor. Qed.

Create HintDb wfe.
#[global] Hint Resolve source_ok_settled source_ok_pending race_jobs_snoc race_jobs_nil : wfe.

(** ** A call of [waitForEvent] in flight *)

Section WaitForEventCall.
Variable call_function : fn_ref -> value -> result value.
Variables (eventName : event_name) (predicate : fn_ref) (timeout : Z)
  (foreign : list (event_name * nat)) (n0 : nat).

(** The state right after the call
    [waitForEvent(emitter, eventName, predicate, timeout, abortPromise)]
    has returned its promise, the abort signal being pending or already
    settled with [abort0] at the call. *)
Definition wfe_start (abort0 : option outcome) : state :=
  snd (waitForEvent 0 eventName predicate timeout 0 (boot abort0 foreign n0)).

(** The handler the call subscribes, its registration handle, the timer
    handle it keeps in [eventTimeout], the calls it makes on the emitter
    and the timers while setting up, and those [cleanup] makes. *)
Definition wfe_handler : listener_fn := WaitForEventHandler predicate 2.
Definition wfe_listener : RegisteredListener :=
  Build_RegisteredListener 0 eventName wfe_handler.
Definition wfe_timer : option tid := if truthy (VNum timeout) then Some 0 else None.
Definition wfe_log0 : list effect :=
  Eff_on 0 eventName wfe_handler ::
  (if truthy (VNum timeout) then [Eff_setTimeout 0 timeout] else []).
Definition wfe_cleanup_log : list effect :=
  [Eff_removeListener 0 eventName wfe_handler; Eff_clearTimeout wfe_timer].
Definition wfe_subscribed : list (event_name * listener_fn) :=
  foreign_subscriptions foreign ++ [(eventName, wfe_handler)].

(** *** The invariant of a wait that some source has won

    Promise 0 is the abort signal, 1 the promise returned to the caller,
    2 the promise settled by the handler and the timer, 3 the race and
    4 the promise derived by [.then].  Once a source has settled, the
    job that reports it to the race is queued; from then on the state of
    the call is in one of four shapes, all for the same outcome [o]:
    the report is at the head of the queue, the race has settled and its
    [then] job is queued, cleanup has run and the continuation of the
    [await] is queued, or the caller's promise has settled. *)

Definition timers_before (tms : list (option timer_callback)) : Prop :=
  match wfe_timer with
  | None => tms = []
  | Some _ => tms = [Some (WaitForEventTimeout 2 eventName)] \/ tms = [None]
  end.
Definition timers_after : list (option timer_callback) :=
  match wfe_timer with
  | None => []
  | Some _ => [None]
  end.
Definition then_cleanup : reaction := ThenCleanup 4 wfe_listener wfe_timer.

(** What the caller gets for what the race settled with. *)
Definition final (o : outcome) : outcome :=
  match o with
  | Fulfilled v => if instanceof_Error v then Rejected v else Fulfilled v
  | Rejected e => Rejected e
  end.

Inductive won (o : outcome) : state -> Prop :=
| won_queued a p q tms n :
    source_ok a -> source_ok p -> race_jobs q -> timers_before tms ->
    won o {| promises := [a; pending []; p; pending [then_cleanup];
                          pending [AwaitWaitForEvent 1]];
             emitters := [wfe_subscribed]; arrays := []; timers := tms;
             microtasks := (RaceElement 3, o) :: q;
             next_object := n; log := wfe_log0 |}
| won_raced a p q1 q2 tms n :
    source_ok a -> source_ok p -> race_jobs q1 -> race_jobs q2 -> timers_before tms ->
    won o {| promises := [a; pending []; p; settled o;
                          pending [AwaitWaitForEvent 1]];
             emitters := [wfe_subscribed]; arrays := []; timers := tms;
             microtasks := q1 ++ (then_cleanup, o) :: q2;
             next_object := n; log := wfe_log0 |}
| won_cleaned a p q1 q2 n :
    source_ok a -> source_ok p -> race_jobs q1 -> race_jobs q2 ->
    won o {| promises := [a; pending []; p; settled o; settled o];
             emitters := [foreign_subscriptions foreign]; arrays := [[]];
             timers := timers_after;
             microtasks := q1 ++ (AwaitWaitForEvent 1, o) :: q2;
             next_object := n; log := wfe_log0 ++ wfe_cleanup_log |}
| won_done a p q n :
    source_ok a -> source_ok p -> race_jobs q ->
    won o {| promises := [a; settled (final o); p; settled o; settled o];
             emitters := [foreign_subscriptions foreign]; arrays := [[]];
             timers := timers_after;
             microtasks := q;
             next_object := n; log := wfe_log0 ++ wfe_cleanup_log |}.

(** The state right after the first source has fired: its report to
    the race is the only queued job. *)
Inductive fired (o : outcome) : state -> Prop :=
| fired_intro a p tms n :
    source_ok a -> source_ok p -> timers_before tms ->
    fired o {| promises := [a; pending []; p; pending [then_cleanup];
                            pending [AwaitWaitForEvent 1]];
               emitters := [wfe_subscribed]; arrays := []; timers := tms;
               microtasks := [(RaceElement 3, o)];
               next_object := n; log := wfe_log0 |}.

Definition timers_armed : list (option timer_callback) :=
  match wfe_timer with
  | None => []
  | Some _ => [Some (WaitForEventTimeout 2 eventName)]
  end.

(** What the handler makes of an event: the outcome it settles its
    promise with, if any. *)
Definition handler_verdict (event : value) : option outcome :=
  match call_function predicate event with
  | Ok r => if truthy r then Some (Fulfilled event) else None
  | Throw e => Some (Rejected e)
  end.

(** *** From the call to the first completion *)

(** The error the timer callback constructs when it fires first. *)
Definition wfe_timeout_error : value :=
  VError n0 TimeoutErrorClass
    ("Timeout exceeded while waiting for " +:+ String_of eventName).

(** What an action does to a wait no source has completed yet: the
    outcome it hands to the race, if any. *)
Definition wfe_fires (a : action) : option outcome :=
  match a with
  | Emit e n event =>
      if bool_decide (e = 0 /\ n = eventName) then handler_verdict event else None
  | ExternalSettles o => Some o
  | Microtask => None
  | TimerFires t =>
      if bool_decide (t = 0 /\ timeout <> 0%Z) then Some (Rejected wfe_timeout_error)
      else None
  end.

(** The first completion in a run. *)
Fixpoint winner (tr : list action) : option outcome :=
  match tr with
  | [] => None
  | a :: tr' => if wfe_fires a is Some o then Some o else winner tr'
  end.

(** An action that leaves the wait pending: an event of another name or
    on which the predicate returns a falsy value, a promise job; not the
    abort signal settling, not a timer. *)
Definition quiet (a : action) : bool :=
  match a with
  | Emit e n event =>
      if bool_decide (e = 0 /\ n = eventName) then
        match call_function predicate event with
        | Ok r => negb (truthy r)
        | Throw _ => false
        end
      else true
  | ExternalSettles _ => false
  | Microtask => true
  | TimerFires _ => false
  end.

(** *** The wait as its caller sees it *)

(** Cleanup has run, once: the log of the calls made on the emitter and
    on the timers is the one of the set-up followed by one
    [removeListener] and one [clearTimeout]; the emitter is left with the
    subscriptions of the others, and no timer is armed. *)
Definition cleaned (s : state) : Prop :=
  log s = wfe_log0 ++ wfe_cleanup_log /\
  emitters s = [foreign_subscriptions foreign] /\
  timers s = timers_after.

(** The run [tr] of a call made while the abort signal was [abort0]
    completes the wait with [x]: three promise jobs after [tr] the
    caller's promise has settled with [x]; and however the run goes on,
    the caller's promise is either pending or settled with [x], cleanup
    having run by then, and it is settled whenever no promise job is
    queued. *)
Definition completes_with (abort0 : option outcome) (tr : list action)
    (x : outcome) : Prop :=
  result_of (run call_function 0 (tr ++ [Microtask; Microtask; Microtask])
               (wfe_start abort0)) = Some x /\
  forall post,
    let s := run call_function 0 (tr ++ post) (wfe_start abort0) in
    (forall y, result_of s = Some y -> y = x /\ cleaned s) /\
    (microtasks s = [] -> result_of s = Some x).

#[local] Arguments wfe_log0 : simpl never.
#[local] Arguments wfe_cleanup_log : simpl never.
#[local] Arguments wfe_subscribed : simpl never.
#[local] Arguments timers_after : simpl never.
#[local] Arguments then_cleanup : simpl never.
#[local] Arguments wfe_timer : simpl never.
#[local] Arguments wfe_listener : simpl never.
#[local] Arguments wfe_handler : simpl never.
#[local] Arguments final : simpl never.

(** *** The invariant is kept by every action *)

Lemma wfe_start_eq abort0 :
  wfe_start abort0 =
  {| promises := [if abort0 is Some o then settled o else pending [RaceElement 3];
                  pending []; pending [RaceElement 3];
                  pending [then_cleanup]; pending [AwaitWaitForEvent 1]];
     emitters := [wfe_subscribed]; arrays := [];
     timers := timers_armed;
     microtasks := if abort0 is Some o then [(RaceElement 3, o)] else [];
     next_object := n0; log := wfe_log0 |}.
Proof.
  unfold wfe_start, waitForEvent, async_function, boot, then_cleanup, timers_armed,
    wfe_timer, wfe_log0.
  cbn. destruct (Z.eqb timeout 0), abort0; reflexivity.
Qed.

Lemma timers_before_armed : timers_before timers_armed.
Proof. unfold timers_before, timers_armed. destruct wfe_timer; auto. Qed.

Lemma emit_foreign l n event s :
  for_of (listeners_of n (foreign_subscriptions l))
         (fun h => call_listener call_function h event) s = (Ok tt, s).
Proof.
  unfold listeners_of, foreign_subscriptions.
  induction l as [|[m k] l IH]; cbn; [done|].
  destruct (decide (m = n)); cbn; apply IH.
Qed.

Lemma settle_ok p o s : (settle p o s).1 = Ok tt.
Proof.
  unfold settle, bind, get. cbn.
  destruct (promises s !! p) as [[[o'|] rs]|]; done.
Qed.

Lemma call_listener_verdict event s :
  call_listener call_function wfe_handler event s =
  (Ok tt, match handler_verdict event with
          | Some o => exec (settle 2 o) s
          | None => s
          end).
Proof.
  unfold exec, call_listener, handler_verdict, wfe_handler, try_catch, bind, call, resolve, reject.
  destruct (call_function predicate event) as [r|e].
  - destruct (truthy r); cbn [negb]; [|done].
    pose proof (settle_ok 2 (Fulfilled event) s) as H.
    destruct (settle 2 (Fulfilled event) s) as [[[]|e] s']; [done|discriminate H].
  - pose proof (settle_ok 2 (Rejected e) s) as H.
    destruct (settle 2 (Rejected e) s) as [[[]|e'] s']; [done|discriminate H].
Qed.

Lemma emit_subscribed n event s :
  emitters s = [wfe_subscribed] ->
  exec (emitter_emit call_function 0 n event) s =
  if decide (n = eventName) then
    match handler_verdict event with
    | Some o => exec (settle 2 o) s
    | None => s
    end
  else s.
Proof.
  intros Hs. unfold exec, emitter_emit, bind, get, deref. rewrite Hs.
  cbn [lookup list_lookup ret].
  unfold wfe_subscribed, listeners_of. rewrite filter_app, map_app, for_of_app.
  unfold bind. fold (listeners_of n (foreign_subscriptions foreign)).
  rewrite emit_foreign, filter_cons, filter_nil. cbn [fst].
  destruct (decide (eventName = n)) as [->|Hne].
  - rewrite decide_True by done. cbn [map snd for_of]. unfold bind.
    rewrite call_listener_verdict. done.
  - rewrite decide_False by done. done.
Qed.

Lemma emit_unsubscribed n event s :
  emitters s = [foreign_subscriptions foreign] ->
  exec (emitter_emit call_function 0 n event) s = s.
Proof.
  intros Hs. unfold exec, emitter_emit, bind, get. cbn. rewrite Hs. cbn.
  by rewrite emit_foreign.
Qed.

Ltac won_tac :=
  first [ eapply won_queued | eapply won_raced | eapply won_cleaned | eapply won_done ];
  eauto with wfe.

Lemma run_then_cleanup o a r p race rs q tms n lg :
  timers_before tms ->
  exec (run_reaction then_cleanup o)
    {| promises := [a; r; p; race; pending rs];
       emitters := [wfe_subscribed]; arrays := []; timers := tms;
       microtasks := q; next_object := n; log := lg |} =
  {| promises := [a; r; p; race; settled o];
     emitters := [foreign_subscriptions foreign]; arrays := [[]];
     timers := timers_after;
     microtasks := q ++ map (fun x => (x, o)) rs;
     next_object := n; log := lg ++ wfe_cleanup_log |}.
Proof.
  unfold timers_before, timers_after, wfe_cleanup_log, then_cleanup, wfe_listener, wfe_timer.
  intros Ht.
  cbn [truthy] in *. destruct (Z.eqb timeout 0); cbn in Ht.
  - subst tms.
    destruct o as [v|e]; js; unfold wfe_subscribed; rewrite remove_last_snoc; js;
      by rewrite <- ?app_assoc.
  - destruct Ht as [-> | ->];
    destruct o as [v|e]; js; unfold wfe_subscribed; rewrite remove_last_snoc; js;
      by rewrite <- ?app_assoc.
Qed.

Lemma run_await o a p race ch q tms arrs subs n lg :
  exec (run_reaction (AwaitWaitForEvent 1) o)
    {| promises := [a; pending []; p; race; ch];
       emitters := subs; arrays := arrs; timers := tms;
       microtasks := q; next_object := n; log := lg |} =
  {| promises := [a; settled (final o); p; race; ch];
     emitters := subs; arrays := arrs; timers := tms;
     microtasks := q ++ []; next_object := n; log := lg |}.
Proof.
  unfold final. destruct o as [v|e]; js; [|done].
  destruct (instanceof_Error v); js; done.
Qed.

Lemma timer_blocked t s :
  microtasks s <> [] -> step call_function 0 (TimerFires t) s = s.
Proof. unfold step. by destruct (microtasks s). Qed.

Lemma timers_after_disarmed t cb : timers_after !! t = Some (Some cb) -> False.
Proof. unfold timers_after. by destruct wfe_timer, t as [|[|t]]. Qed.

Lemma step_won a o s : won o s -> won o (step call_function 0 a s).
Proof.
  intros H. destruct a as [e n event|o'| |t].
  - (* Emit *)
    destruct e as [|e].
    + destruct H; cbn -[emitter_emit].
      * rewrite emit_subscribed by done. case_decide; [|by constructor].
        destruct (handler_verdict event) as [o'|]; [|by constructor].
        destruct H0 as [-> | [? ->]]; cbn; won_tac.
      * rewrite emit_subscribed by done. case_decide; [|by constructor].
        destruct (handler_verdict event) as [o'|]; [|by constructor].
        destruct H0 as [-> | [? ->]]; cbn; [|won_tac].
        rewrite <- app_assoc. cbn. won_tac.
      * rewrite emit_unsubscribed by done. by constructor.
      * rewrite emit_unsubscribed by done. by constructor.
    + destruct H; cbn; by constructor.
  - (* the abort signal settles *)
    destruct H; destruct H as [-> | [? ->]]; cbn; try rewrite <- app_assoc; cbn; won_tac.
  - (* a promise job *)
    destruct H.
    + js. won_tac.
    + destruct q1 as [|[r o'] q1]; cbn -[run_reaction].
      * rewrite run_then_cleanup by done. cbn. by apply (won_cleaned _ _ _ q2 []).
      * apply Forall_cons in H1 as [Hr H1]. cbn in Hr. subst r. js. won_tac.
    + destruct q1 as [|[r o'] q1]; cbn -[run_reaction].
      * rewrite run_await. rewrite app_nil_r. won_tac.
      * apply Forall_cons in H1 as [Hr H1]. cbn in Hr. subst r. js. won_tac.
    + destruct q as [|[r o'] q]; cbn -[run_reaction]; [won_tac|].
      apply Forall_cons in H1 as [Hr H1]. cbn in Hr. subst r. js. won_tac.
  - (* a timer task *)
    destruct H.
    + rewrite timer_blocked by done. won_tac.
    + rewrite timer_blocked by (by destruct q1). won_tac.
    + rewrite timer_blocked by (by destruct q1). won_tac.
    + destruct q; [|rewrite timer_blocked by done; won_tac].
      cbn. destruct (timers_after !! t) as [[cb|]|] eqn:E; [|won_tac..].
      by apply timers_after_disarmed in E.
Qed.

(** *** The first completion wins *)

Lemma fired_won o s : fired o s -> won o s.
Proof. intros []. apply won_queued; eauto with wfe. Qed.

Lemma step_pending a :
  match wfe_fires a with
  | Some o => fired o (step call_function 0 a (wfe_start None))
  | None => step call_function 0 a (wfe_start None) = wfe_start None
  end.
Proof.
  rewrite wfe_start_eq. destruct a as [e n event|o| |t]; cbn -[emitter_emit].
  - destruct e as [|e]; cbn -[emitter_emit].
    + rewrite emit_subscribed by done.
      destruct (decide (n = eventName)) as [->|Hne].
      * rewrite bool_decide_eq_true_2 by done.
        destruct (handler_verdict event) as [o|]; [|done].
        js. constructor; eauto using timers_before_armed with wfe.
      * rewrite bool_decide_eq_false_2 by (by intros [_ ?]). done.
    + rewrite bool_decide_eq_false_2 by (by intros [? _]). done.
  - js. constructor; eauto using timers_before_armed with wfe.
  - done.
  - unfold timers_armed, wfe_timer, wfe_timeout_error. cbn [truthy].
    destruct (Z.eqb_spec timeout 0) as [->|Hne]; cbn.
    + rewrite bool_decide_eq_false_2 by (by intros [_ ?]). by destruct t.
    + destruct t as [|t]; cbn.
      * rewrite bool_decide_eq_true_2 by done. js.
        constructor; eauto with wfe.
        unfold timers_before, wfe_timer. cbn [truthy].
        destruct (Z.eqb_spec timeout 0); [done|]. cbn. auto.
      * rewrite bool_decide_eq_false_2 by (by intros [? _]). by destruct t.
Qed.

Lemma run_won tr o s : won o s -> won o (run call_function 0 tr s).
Proof.
  revert s. induction tr as [|a tr IH]; intros s H; cbn; [done|].
  apply IH. by apply step_won.
Qed.

Lemma run_pending tr :
  match winner tr with
  | Some o => won o (run call_function 0 tr (wfe_start None))
  | None => run call_function 0 tr (wfe_start None) = wfe_start None
  end.
Proof.
  induction tr as [|a tr IH]; cbn; [done|].
  pose proof (step_pending a) as Ha.
  destruct (wfe_fires a) as [o|].
  - by apply run_won, fired_won.
  - by rewrite Ha.
Qed.

Lemma start_aborted o : fired o (wfe_start (Some o)).
Proof.
  rewrite wfe_start_eq. constructor; eauto using timers_before_armed with wfe.
Qed.

Lemma reachable abort0 tr :
  run call_function 0 tr (wfe_start abort0) = wfe_start None \/
  exists o, won o (run call_function 0 tr (wfe_start abort0)).
Proof.
  destruct abort0 as [o|].
  - right. exists o. apply run_won, fired_won, start_aborted.
  - pose proof (run_pending tr) as H. destruct (winner tr) as [o|]; eauto.
Qed.

(** *** What the invariant says about the observables *)

Lemma pending_unobserved : result_of (wfe_start None) = None.
Proof. by rewrite wfe_start_eq. Qed.

Lemma won_observed o s x :
  won o s -> result_of s = Some x ->
  x = final o /\ promise_state 3 s = Some o /\
  log s = wfe_log0 ++ wfe_cleanup_log /\
  emitters s = [foreign_subscriptions foreign] /\ timers s = timers_after.
Proof.
  intros Hw Hx. destruct Hw; cbn in Hx; try discriminate. by injection Hx as <-.
Qed.

Lemma won_quiescent o s :
  won o s -> microtasks s = [] -> result_of s = Some (final o).
Proof.
  intros Hw Hq. destruct Hw; cbn in Hq; try discriminate; try (by destruct q1).
  by subst.
Qed.

Lemma won_log o s :
  won o s -> log s = wfe_log0 \/ log s = wfe_log0 ++ wfe_cleanup_log.
Proof. intros []; cbn; auto. Qed.

Lemma run_race_pending o a r p rs rest subs arrs tms q n lg :
  exec (run_reaction (RaceElement 3) o)
    {| promises := a :: r :: p :: pending rs :: rest;
       emitters := subs; arrays := arrs; timers := tms;
       microtasks := q; next_object := n; log := lg |} =
  {| promises := a :: r :: p :: settled o :: rest;
     emitters := subs; arrays := arrs; timers := tms;
     microtasks := q ++ map (fun x => (x, o)) rs; next_object := n; log := lg |}.
Proof. by js. Qed.

Lemma fired_three_jobs o s :
  fired o s ->
  result_of (run call_function 0 [Microtask; Microtask; Microtask] s) = Some (final o).
Proof.
  intros [a p tms n Ha Hp Ht]. cbn -[run_reaction].
  rewrite run_race_pending. cbn -[run_reaction].
  rewrite run_then_cleanup by done. cbn -[run_reaction].
  by rewrite run_await.
Qed.

Lemma removals_log0 : removals wfe_log0 = 0.
Proof. unfold removals, wfe_log0. by destruct (truthy (VNum timeout)). Qed.
Lemma clears_log0 : clears wfe_log0 = 0.
Proof. unfold clears, wfe_log0. by destruct (truthy (VNum timeout)). Qed.
Lemma removals_cleaned : removals (wfe_log0 ++ wfe_cleanup_log) = 1.
Proof.
  unfold removals. rewrite List.filter_app, length_app.
  fold (removals wfe_log0). by rewrite removals_log0.
Qed.
Lemma clears_cleaned : clears (wfe_log0 ++ wfe_cleanup_log) = 1.
Proof.
  unfold clears. rewrite List.filter_app, length_app.
  fold (clears wfe_log0). by rewrite clears_log0.
Qed.

Lemma quiet_fires a : quiet a = true -> wfe_fires a = None.
Proof.
  destruct a as [e n event|o| |t]; cbn; try done.
  unfold handler_verdict. case_bool_decide; [|done].
  destruct (call_function predicate event) as [r|e']; [|done].
  by destruct (truthy r).
Qed.

Lemma winner_quiet pre tr :
  forallb quiet pre = true -> winner (pre ++ tr) = winner tr.
Proof.
  induction pre as [|b pre IH]; cbn; [done|].
  intros [Hb Hpre]%andb_prop. by rewrite (quiet_fires b Hb), IH.
Qed.

Lemma run_quiet pre :
  forallb quiet pre = true ->
  run call_function 0 pre (wfe_start None) = wfe_start None.
Proof.
  intros H. pose proof (run_pending pre) as Hr.
  rewrite <- (app_nil_r pre), (winner_quiet pre [] H) in Hr. cbn in Hr.
  by rewrite app_nil_r in Hr.
Qed.

(** A quiet prefix, then the action that completes the wait, then
    anything: the call is won by that completion, and three promise jobs
    after it the caller's promise is settled. *)
Lemma scenario pre a post o :
  forallb quiet pre = true -> wfe_fires a = Some o ->
  won o (run call_function 0 (pre ++ a :: post) (wfe_start None)) /\
  result_of (run call_function 0 (pre ++ a :: [Microtask; Microtask; Microtask])
               (wfe_start None)) = Some (final o).
Proof.
  intros Hpre Ha. pose proof (step_pending a) as Hstep. rewrite Ha in Hstep. split.
  - rewrite run_app, run_quiet by done. cbn. by apply run_won, fired_won.
  - rewrite run_app, run_quiet by done.
    change (run call_function 0 (a :: ?l) ?s) with (run call_function 0 l (step call_function 0 a s)).
    by apply fired_three_jobs.
Qed.

Lemma won_completes o s :
  won o s ->
  (forall y, result_of s = Some y -> y = final o /\ cleaned s) /\
  (microtasks s = [] -> result_of s = Some (final o)).
Proof.
  intros Hw. split.
  - intros y Hy. destruct (won_observed o s y Hw Hy) as (? & _ & ? & ? & ?).
    by repeat split.
  - by apply won_quiescent.
Qed.

Lemma scenario_completes pre a o :
  forallb quiet pre = true -> wfe_fires a = Some o ->
  completes_with None (pre ++ [a]) (final o).
Proof.
  intros Hpre Ha. split.
  - rewrite <- app_assoc. by apply scenario.
  - intros post. rewrite <- app_assoc. cbn [app].
    apply won_completes. by apply scenario.
Qed.

Lemma aborted_completes o : completes_with (Some o) [] (final o).
Proof.
  split.
  - apply fired_three_jobs, start_aborted.
  - intros post. apply won_completes, run_won, fired_won, start_aborted.
Qed.


(** *** The claims about [waitForEvent] *)

(** C1. For every call of [waitForEvent], whatever the abort signal was
    at the call and whatever happens afterwards: in every state in which
    the caller's promise is settled (with a payload, a predicate
    exception, the Timeout error or the abort value), cleanup has run
    exactly once.  The calls made on the collaborators are those of the
    set-up followed by one [removeListener] of the registered handler and
    one [clearTimeout] of the timer handle; the handler is no longer
    subscribed and no timer is armed. *)
Theorem waitForEvent_cleanup_exactly_once abort0 tr x :
  let s := run call_function 0 tr (wfe_start abort0) in
  result_of s = Some x ->
  cleaned s /\ removals (log s) = 1 /\ clears (log s) = 1.
Proof.
  intros s Hx. subst s.
  destruct (reachable abort0 tr) as [Heq | [o Hw]].
  - rewrite Heq, pending_unobserved in Hx. discriminate.
  - destruct (won_completes o _ Hw) as [Hc _].
    destruct (Hc x Hx) as [_ Hcl]. split; [done|].
    destruct Hcl as (-> & _ & _). split; [apply removals_cleaned|apply clears_cleaned].
Qed.


(** C10. The value [result] the awaited race fulfils with is thrown when
    it is an instance of [Error] and returned otherwise, whichever source
    produced it (a rejection of the race is rethrown by the [await]
    itself).  So an abort signal that resolves first, to a value that is
    not an [Error], makes the call succeed with that value; and a
    matched event whose payload is an [Error] makes the call fail with
    that payload. *)
Theorem waitForEvent_instanceof_check :
  (forall abort0 tr x,
     result_of (run call_function 0 tr (wfe_start abort0)) = Some x ->
     exists o,
       promise_state 3 (run call_function 0 tr (wfe_start abort0)) = Some o /\
       x = match o with
           | Fulfilled result =>
               if instanceof_Error result then Rejected result else Fulfilled result
           | Rejected e => Rejected e
           end) /\
  (forall pre v,
     forallb quiet pre = true -> instanceof_Error v = false ->
     completes_with None (pre ++ [ExternalSettles (Fulfilled v)]) (Fulfilled v)) /\
  (forall pre event r,
     forallb quiet pre = true ->
     call_function predicate event = Ok r -> truthy r = true ->
     instanceof_Error event = true ->
     completes_with None (pre ++ [Emit 0 eventName event]) (Rejected event)).
Proof.
  split; [|split].
  - intros abort0 tr x Hx.
    destruct (reachable abort0 tr) as [Heq | [o Hw]].
    + rewrite Heq, pending_unobserved in Hx. discriminate.
    + exists o. by destruct (won_observed o _ x Hw Hx) as (-> & ? & _).
  - intros pre v Hpre Hv.
    pose proof (scenario_completes pre (ExternalSettles (Fulfilled v))
                  (Fulfilled v) Hpre eq_refl) as H.
    unfold final in H. by rewrite Hv in H.
  - intros pre event r Hpre Hr Ht He.
    assert (wfe_fires (Emit 0 eventName event) = Some (Fulfilled event)) as Hf.
    { cbn. rewrite bool_decide_eq_true_2 by done. unfold handler_verdict.
      by rewrite Hr, Ht. }
    pose proof (scenario_completes pre _ _ Hpre Hf) as H.
    unfold final in H. by rewrite He in H.
Qed.

Lemma removals_at_most_once abort0 tr :
  removals (log (run call_function 0 tr (wfe_start abort0))) <= 1.
Proof.
  destruct (reachable abort0 tr) as [Heq | [o Hw]].
  - rewrite Heq, wfe_start_eq. cbn [log]. rewrite removals_log0. lia.
  - destruct (won_log o _ Hw) as [-> | ->].
    + rewrite removals_log0. lia.
    + by rewrite removals_cleaned.
Qed.

(** C2 (amended). With a timeout [t > 0], when the timer fires while the
    wait is pending (so far every event emitted under the name made the
    predicate return a falsy value, and the abort signal has not
    settled), [waitForEvent] fails with a [TimeoutError] whose message is
    "Timeout exceeded while waiting for <eventName>", and its listener is
    removed by the time the failure is observed. *)
Theorem waitForEvent_timeout pre :
  (0 < timeout)%Z ->
  forallb quiet pre = true ->
  completes_with None (pre ++ [TimerFires 0])
    (Rejected (VError n0 TimeoutErrorClass
                 ("Timeout exceeded while waiting for " +:+ String_of eventName))).
Proof.
  intros Ht Hpre.
  apply (scenario_completes pre (TimerFires 0) (Rejected wfe_timeout_error) Hpre).
  cbn. rewrite bool_decide_eq_true_2; [done|]. split; [done|lia].
Qed.

(** C3 (amended). When the predicate returns a falsy value on the first
    k-1 events and a truthy one on the k-th, with no timer expiry and no
    abort before it, and the k-th payload is neither an instance of
    [Error] nor a promise or another thenable, [waitForEvent] resolves
    with that payload; and at no point of any continuation has it
    removed a listener more than once.  The payload [event] ranges over
    [value], whose members are not thenables: [resolveCallback(event)]
    fulfils the promise with them. *)
Theorem waitForEvent_match pre event r :
  forallb quiet pre = true ->
  call_function predicate event = Ok r -> truthy r = true ->
  instanceof_Error event = false ->
  completes_with None (pre ++ [Emit 0 eventName event]) (Fulfilled event) /\
  forall post,
    removals (log (run call_function 0 ((pre ++ [Emit 0 eventName event]) ++ post)
                     (wfe_start None))) <= 1.
Proof.
  intros Hpre Hr Ht He. split; [|intros post; apply removals_at_most_once].
  assert (wfe_fires (Emit 0 eventName event) = Some (Fulfilled event)) as Hf.
  { cbn. rewrite bool_decide_eq_true_2 by done. unfold handler_verdict.
    by rewrite Hr, Ht. }
  pose proof (scenario_completes pre _ _ Hpre Hf) as H.
  unfold final in H. by rewrite He in H.
Qed.

(** C4 (amended). When the abort signal resolves to an [Error] value
    while the wait is pending (no event has matched the predicate or made
    it throw, the timer has not fired), or had resolved to it before
    the call, [waitForEvent] fails with that very value, cleanup having
    run by the time the failure is observed. *)
Theorem waitForEvent_abort e :
  instanceof_Error e = true ->
  (forall pre,
     forallb quiet pre = true ->
     completes_with None (pre ++ [ExternalSettles (Fulfilled e)]) (Rejected e)) /\
  completes_with (Some (Fulfilled e)) [] (Rejected e).
Proof.
  intros He. split.
  - intros pre Hpre.
    pose proof (scenario_completes pre (ExternalSettles (Fulfilled e))
                  (Fulfilled e) Hpre eq_refl) as H.
    unfold final in H. by rewrite He in H.
  - pose proof (aborted_completes (Fulfilled e)) as H.
    unfold final in H. by rewrite He in H.
Qed.

(** C5 (amended). When the predicate throws on an event emitted while
    the wait is pending (no earlier event matched or made it throw, the
    timer has not fired, the abort signal has not settled),
    [waitForEvent] fails with the thrown value itself; by the time the
    failure is observed the listener is removed and the timer, which had
    not fired, is cleared. *)
Theorem waitForEvent_predicate_throws pre event e :
  forallb quiet pre = true ->
  call_function predicate event = Throw e ->
  completes_with None (pre ++ [Emit 0 eventName event]) (Rejected e).
Proof.
  intros Hpre He.
  apply (scenario_completes pre (Emit 0 eventName event) (Rejected e) Hpre).
  cbn. rewrite bool_decide_eq_true_2 by done. unfold handler_verdict.
  by rewrite He.
Qed.

End WaitForEventCall.

(** *** Concrete runs *)

(** A predicate for the examples: numbers match when they are 2, strings
    make it throw, [Error] objects match, anything else does not. *)
Definition demo_call (f : fn_ref) (v : value) : result value :=
  match v with
  | VNum n => Ok (VBool (Z.eqb n 2))
  | VStr _ => Throw (VError 7 ErrorClass "bad event")
  | VError _ _ _ => Ok (VBool true)
  | _ => Ok VUndefined
  end.

Definition demo_start (timeout : Z) (abort0 : option outcome) : state :=
  wfe_start (EvString "load") 0 timeout [(EvString "load", 3)] 0 abort0.

Definition demo_run (tr : list action) (timeout : Z) (abort0 : option outcome) : state :=
  run demo_call 0 tr (demo_start timeout abort0).

Definition load (v : value) : action := Emit 0 (EvString "load") v.
Definition aborted : value := VError 9 ErrorClass "aborted".
Definition jobs3 : list action := [Microtask; Microtask; Microtask].

(** The scenarios of the spec: events A (predicate false) then B
    (predicate true) under a timeout of 1000 ms; no event and a timeout
    of 100 ms; a predicate that throws on the first event. *)
Example scenario_A_then_B :
  let s := demo_run (load (VNum 1) :: load (VNum 2) :: jobs3) 1000 None in
  result_of s = Some (Fulfilled (VNum 2)) /\
  removals (log s) = 1 /\ timers s = [None] /\
  emitters s = [[(EvString "load", ForeignHandler 3)]].
Proof. repeat split. Qed.

Example scenario_timeout :
  result_of (demo_run (TimerFires 0 :: jobs3) 100 None) =
  Some (Rejected (VError 0 TimeoutErrorClass "Timeout exceeded while waiting for load")).
Proof. reflexivity. Qed.

Example scenario_predicate_throws :
  let s := demo_run (load (VStr "x") :: jobs3) 1000 None in
  result_of s = Some (Rejected (VError 7 ErrorClass "bad event")) /\
  removals (log s) = 1 /\ timers s = [None] /\
  log s = [Eff_on 0 (EvString "load") (WaitForEventHandler 0 2); Eff_setTimeout 0 1000;
           Eff_removeListener 0 (EvString "load") (WaitForEventHandler 0 2);
           Eff_clearTimeout (Some 0)].
Proof. repeat split. Qed.

Example scenario_symbol_name :
  result_of (run demo_call 0 (TimerFires 0 :: jobs3)
               (wfe_start (EvSymbol 4 "closed") 0 50 [] 0 None)) =
  Some (Rejected (VError 0 TimeoutErrorClass
                    "Timeout exceeded while waiting for Symbol(closed)")).
Proof. reflexivity. Qed.

Lemma waitForEvent_cleanup_exactly_once_witness :
  let s := demo_run (load (VNum 1) :: load (VNum 2) :: jobs3) 1000 None in
  cleaned (EvString "load") 0 1000 [(EvString "load", 3)] s /\
  removals (log s) = 1 /\ clears (log s) = 1.
Proof.
  apply (waitForEvent_cleanup_exactly_once demo_call (EvString "load") 0 1000
           [(EvString "load", 3)] 0 None
           (load (VNum 1) :: load (VNum 2) :: jobs3) (Fulfilled (VNum 2))).
  reflexivity.
Defined.


Lemma waitForEvent_instanceof_check_witness :
  (exists o,
     promise_state 3 (demo_run (load (VError 5 ErrorClass "payload") :: jobs3) 1000 None)
       = Some o /\
     Rejected (VError 5 ErrorClass "payload") =
       match o with
       | Fulfilled result =>
           if instanceof_Error result then Rejected result else Fulfilled result
       | Rejected e => Rejected e
       end) /\
  completes_with demo_call (EvString "load") 0 1000 [(EvString "load", 3)] 0 None
    ([load (VNum 1)] ++ [ExternalSettles (Fulfilled (VStr "stop"))])
    (Fulfilled (VStr "stop")) /\
  completes_with demo_call (EvString "load") 0 1000 [(EvString "load", 3)] 0 None
    ([load (VNum 1)] ++ [load (VError 5 ErrorClass "payload")])
    (Rejected (VError 5 ErrorClass "payload")).
Proof.
  destruct (waitForEvent_instanceof_check demo_call (EvString "load") 0 1000
              [(EvString "load", 3)] 0) as (H1 & H2 & H3).
  split; [|split].
  - apply (H1 None). reflexivity.
  - apply H2; reflexivity.
  - apply (H3 _ _ (VBool true)); reflexivity.
Defined.

Lemma waitForEvent_timeout_witness :
  completes_with demo_call (EvString "load") 0 1000 [(EvString "load", 3)] 0 None
    ([load (VNum 1); Microtask; load (VNum 3)] ++ [TimerFires 0])
    (Rejected (VError 0 TimeoutErrorClass "Timeout exceeded while waiting for load")).
Proof.
  apply (waitForEvent_timeout demo_call (EvString "load") 0 1000
           [(EvString "load", 3)] 0); [lia|reflexivity].
Defined.

Lemma waitForEvent_match_witness :
  completes_with demo_call (EvString "load") 0 1000 [(EvString "load", 3)] 0 None
    ([load (VNum 1); load (VNum 3)] ++ [load (VNum 2)]) (Fulfilled (VNum 2)) /\
  forall post,
    removals (log (demo_run (([load (VNum 1); load (VNum 3)] ++ [load (VNum 2)]) ++ post)
                     1000 None)) <= 1.
Proof.
  apply (waitForEvent_match demo_call (EvString "load") 0 1000
           [(EvString "load", 3)] 0 _ _ (VBool true)); reflexivity.
Defined.

Lemma waitForEvent_abort_witness :
  (forall pre,
     forallb (quiet demo_call (EvString "load") 0) pre = true ->
     completes_with demo_call (EvString "load") 0 1000 [(EvString "load", 3)] 0 None
       (pre ++ [ExternalSettles (Fulfilled aborted)]) (Rejected aborted)) /\
  completes_with demo_call (EvString "load") 0 1000 [(EvString "load", 3)] 0
    (Some (Fulfilled aborted)) [] (Rejected aborted).
Proof.
  apply (waitForEvent_abort demo_call (EvString "load") 0 1000
           [(EvString "load", 3)] 0 aborted). reflexivity.
Defined.

Lemma waitForEvent_predicate_throws_witness :
  completes_with demo_call (EvString "load") 0 1000 [(EvString "load", 3)] 0 None
    ([load (VNum 1)] ++ [load (VStr "x")])
    (Rejected (VError 7 ErrorClass "bad event")).
Proof.
  apply (waitForEvent_predicate_throws demo_call (EvString "load") 0 1000
           [(EvString "load", 3)] 0); reflexivity.
Defined.

(** C2 as stated fails: with a timeout of 1000 ms and an emitter that
    emits nothing the predicate accepts, the wait fails with the abort
    value when the abort signal resolves first, and with the exception of
    the predicate when the predicate throws; in neither run with the
    Timeout error, although the timer is given its turn. *)
Lemma waitForEvent_timeout_counterexample :
  let s1 := demo_run (ExternalSettles (Fulfilled aborted) :: jobs3 ++ [TimerFires 0] ++ jobs3)
              1000 None in
  let s2 := demo_run (load (VStr "x") :: jobs3 ++ [TimerFires 0] ++ jobs3) 1000 None in
  result_of s1 = Some (Rejected aborted) /\
  result_of s2 = Some (Rejected (VError 7 ErrorClass "bad event")) /\
  forall n,
    result_of s1 <> Some (Rejected (VError n TimeoutErrorClass
                                     "Timeout exceeded while waiting for load")) /\
    result_of s2 <> Some (Rejected (VError n TimeoutErrorClass
                                     "Timeout exceeded while waiting for load")).
Proof. vm_compute. repeat split; first [reflexivity | intros; congruence]. Qed.

(** C3 as stated fails: the predicate returns false on the first event
    and true on the second, whose payload is an [Error] object; the call
    does not resolve with that payload, it fails with it. *)
Lemma waitForEvent_match_counterexample :
  let payload := VError 5 ErrorClass "payload" in
  let s := demo_run (load (VNum 1) :: load payload :: jobs3) 1000 None in
  demo_call 0 (VNum 1) = Ok (VBool false) /\
  demo_call 0 payload = Ok (VBool true) /\
  result_of s = Some (Rejected payload) /\
  result_of s <> Some (Fulfilled payload).
Proof. vm_compute. repeat split; first [reflexivity | intros; congruence]. Qed.

(** C4 as stated fails: the abort signal resolves to an [Error] before
    any event has matched and before the timer fires, but after an event
    on which the predicate threw; the call fails with the exception of
    the predicate, not with the abort value. *)
Lemma waitForEvent_abort_counterexample :
  let s := demo_run (load (VStr "x") :: ExternalSettles (Fulfilled aborted) ::
                     Microtask :: jobs3) 1000 None in
  demo_call 0 (VStr "x") = Throw (VError 7 ErrorClass "bad event") /\
  instanceof_Error aborted = true /\
  result_of s = Some (Rejected (VError 7 ErrorClass "bad event")) /\
  result_of s <> Some (Rejected aborted).
Proof. vm_compute. repeat split; first [reflexivity | intros; congruence]. Qed.

(** C5 as stated fails: the predicate throws on an event emitted right
    after a matching one, or right after the abort signal resolved; the
    call resolves with the first payload, respectively fails with the
    abort value, not with the exception of the predicate. *)
Lemma waitForEvent_predicate_throws_counterexample :
  let s1 := demo_run (load (VNum 2) :: load (VStr "x") :: jobs3) 1000 None in
  let s2 := demo_run (ExternalSettles (Fulfilled aborted) :: load (VStr "x") ::
                      Microtask :: jobs3) 1000 None in
  demo_call 0 (VStr "x") = Throw (VError 7 ErrorClass "bad event") /\
  result_of s1 = Some (Fulfilled (VNum 2)) /\
  result_of s2 = Some (Rejected aborted) /\
  result_of s1 <> Some (Rejected (VError 7 ErrorClass "bad event")) /\
  result_of s2 <> Some (Rejected (VError 7 ErrorClass "bad event")).
Proof. vm_compute. repeat split; first [reflexivity | intros; congruence]. Qed.

(** ** A call of [waitWithTimeout] in flight *)

Section WaitWithTimeoutCall.
Variable call_function : fn_ref -> value -> result value.
Variables (taskName : string) (timeout : Z)
  (foreign : list (event_name * nat)) (n0 : nat).

(** The call [waitWithTimeout(promise, taskName, timeout)], [promise]
    being promise 0, pending or already settled with [promise0]. *)
Definition wwt_start (promise0 : option outcome) : state :=
  snd (waitWithTimeout 0 taskName timeout (boot promise0 foreign n0)).

(** [timeoutError], constructed at the call. *)
Definition wwt_timeout_error : value :=
  VError n0 TimeoutErrorClass
    ("waiting for " +:+ taskName +:+ " failed: timeout "
     +:+ number_to_string timeout +:+ "ms exceeded").

Definition wwt_timer : option tid := if truthy (VNum timeout) then Some 0 else None.
Definition wwt_log0 : list effect :=
  if truthy (VNum timeout) then [Eff_setTimeout 0 timeout] else [].
Definition wwt_finally_log : list effect :=
  if truthy (VNum timeout) then [Eff_clearTimeout (Some 0)] else [].
Definition wwt_timers_armed : list (option timer_callback) :=
  match wwt_timer with
  | None => []
  | Some _ => [Some (WaitWithTimeoutTimeout 2 wwt_timeout_error)]
  end.
Definition wwt_timers_before (tms : list (option timer_callback)) : Prop :=
  match wwt_timer with
  | None => tms = []
  | Some _ => tms = [Some (WaitWithTimeoutTimeout 2 wwt_timeout_error)] \/ tms = [None]
  end.
Definition wwt_timers_after : list (option timer_callback) :=
  match wwt_timer with
  | None => []
  | Some _ => [None]
  end.
Definition wwt_await : reaction := AwaitWaitWithTimeout 1 wwt_timer.

(** The invariant of a race some side has won.  Promise 0 is the
    computation, 1 the promise returned to the caller, 2 the promise the
    timer rejects and 3 the race. *)
Inductive wwt_won (o : outcome) : state -> Prop :=
| wwt_queued a tp q tms :
    source_ok a -> source_ok tp -> race_jobs q -> wwt_timers_before tms ->
    wwt_won o {| promises := [a; pending []; tp; pending [wwt_await]];
                 emitters := [foreign_subscriptions foreign]; arrays := [];
                 timers := tms; microtasks := (RaceElement 3, o) :: q;
                 next_object := S n0; log := wwt_log0 |}
| wwt_raced a tp q1 q2 tms :
    source_ok a -> source_ok tp -> race_jobs q1 -> race_jobs q2 ->
    wwt_timers_before tms ->
    wwt_won o {| promises := [a; pending []; tp; settled o];
                 emitters := [foreign_subscriptions foreign]; arrays := [];
                 timers := tms; microtasks := q1 ++ (wwt_await, o) :: q2;
                 next_object := S n0; log := wwt_log0 |}
| wwt_done a tp q :
    source_ok a -> source_ok tp -> race_jobs q ->
    wwt_won o {| promises := [a; settled o; tp; settled o];
                 emitters := [foreign_subscriptions foreign]; arrays := [];
                 timers := wwt_timers_after; microtasks := q;
                 next_object := S n0; log := wwt_log0 ++ wwt_finally_log |}.

Inductive wwt_fired (o : outcome) : state -> Prop :=
| wwt_fired_intro a tp tms :
    source_ok a -> source_ok tp -> wwt_timers_before tms ->
    wwt_fired o {| promises := [a; pending []; tp; pending [wwt_await]];
                   emitters := [foreign_subscriptions foreign]; arrays := [];
                   timers := tms; microtasks := [(RaceElement 3, o)];
                   next_object := S n0; log := wwt_log0 |}.

(** What an action does to a race nobody has won yet. *)
Definition wwt_fires (a : action) : option outcome :=
  match a with
  | Emit _ _ _ => None
  | ExternalSettles o => Some o
  | Microtask => None
  | TimerFires t =>
      if bool_decide (t = 0 /\ timeout <> 0%Z) then Some (Rejected wwt_timeout_error)
      else None
  end.

Fixpoint wwt_winner (tr : list action) : option outcome :=
  match tr with
  | [] => None
  | a :: tr' => if wwt_fires a is Some o then Some o else wwt_winner tr'
  end.

(** An action that leaves the race undecided: anything but the
    computation settling or a timer. *)
Definition wwt_quiet (a : action) : bool :=
  match a with
  | Emit _ _ _ | Microtask => true
  | ExternalSettles _ | TimerFires _ => false
  end.

(** An action other than the computation settling. *)
Definition undecided (a : action) : bool :=
  match a with
  | ExternalSettles _ => false
  | _ => true
  end.

(** The timer has been cleared, if one was armed. *)
Definition wwt_cleaned (s : state) : Prop :=
  log s = wwt_log0 ++ wwt_finally_log /\ timers s = wwt_timers_after.

(** The run [tr] completes the call with [x]: two promise jobs after
    [tr] the caller's promise has settled with [x]; and however the run
    goes on, the caller's promise is either pending or settled with [x],
    the timer being cleared by then, and it is settled whenever no
    promise job is queued. *)
Definition wwt_completes_with (promise0 : option outcome) (tr : list action)
    (x : outcome) : Prop :=
  result_of (run call_function 0 (tr ++ [Microtask; Microtask])
               (wwt_start promise0)) = Some x /\
  forall post,
    let s := run call_function 0 (tr ++ post) (wwt_start promise0) in
    (forall y, result_of s = Some y -> y = x /\ wwt_cleaned s) /\
    (microtasks s = [] -> result_of s = Some x).

(** The call [(async () => await promise)()] on the same world. *)
Definition awd_start (promise0 : option outcome) : state :=
  snd (await_directly 0 (boot promise0 foreign n0)).

(** [waitWithTimeout(promise, name, 0)] and the direct await, run side by
    side on the same actions: both pending; the promise settled and each
    with its first job queued; the direct await done and
    [waitWithTimeout] one job behind; both done with the same outcome. *)
Inductive lockstep : state -> state -> Prop :=
| lockstep_pending :
    lockstep
      {| promises := [pending [RaceElement 3]; pending []; pending [RaceElement 3];
                      pending [AwaitWaitWithTimeout 1 None]];
         emitters := [foreign_subscriptions foreign]; arrays := []; timers := [];
         microtasks := []; next_object := S n0; log := [] |}
      {| promises := [pending [AwaitDirectly 1]; pending []];
         emitters := [foreign_subscriptions foreign]; arrays := []; timers := [];
         microtasks := []; next_object := n0; log := [] |}
| lockstep_queued o :
    lockstep
      {| promises := [settled o; pending []; pending [RaceElement 3];
                      pending [AwaitWaitWithTimeout 1 None]];
         emitters := [foreign_subscriptions foreign]; arrays := []; timers := [];
         microtasks := [(RaceElement 3, o)]; next_object := S n0; log := [] |}
      {| promises := [settled o; pending []];
         emitters := [foreign_subscriptions foreign]; arrays := []; timers := [];
         microtasks := [(AwaitDirectly 1, o)]; next_object := n0; log := [] |}
| lockstep_behind o :
    lockstep
      {| promises := [settled o; pending []; pending [RaceElement 3]; settled o];
         emitters := [foreign_subscriptions foreign]; arrays := []; timers := [];
         microtasks := [(AwaitWaitWithTimeout 1 None, o)];
         next_object := S n0; log := [] |}
      {| promises := [settled o; settled o];
         emitters := [foreign_subscriptions foreign]; arrays := []; timers := [];
         microtasks := []; next_object := n0; log := [] |}
| lockstep_done o :
    lockstep
      {| promises := [settled o; settled o; pending [RaceElement 3]; settled o];
         emitters := [foreign_subscriptions foreign]; arrays := []; timers := [];
         microtasks := []; next_object := S n0; log := [] |}
      {| promises := [settled o; settled o];
         emitters := [foreign_subscriptions foreign]; arrays := []; timers := [];
         microtasks := []; next_object := n0; log := [] |}.

#[local] Arguments wwt_log0 : simpl never.
#[local] Arguments wwt_finally_log : simpl never.
#[local] Arguments wwt_timers_after : simpl never.
#[local] Arguments wwt_await : simpl never.
#[local] Arguments wwt_timer : simpl never.
#[local] Arguments wwt_timeout_error : simpl never.

Lemma wwt_start_eq promise0 :
  wwt_start promise0 =
  {| promises := [if promise0 is Some o then settled o else pending [RaceElement 3];
                  pending []; pending [RaceElement 3]; pending [wwt_await]];
     emitters := [foreign_subscriptions foreign]; arrays := [];
     timers := wwt_timers_armed;
     microtasks := if promise0 is Some o then [(RaceElement 3, o)] else [];
     next_object := S n0; log := wwt_log0 |}.
Proof.
  unfold wwt_start, waitWithTimeout, async_function, boot, wwt_await, wwt_timers_armed,
    wwt_timer, wwt_log0, wwt_timeout_error.
  cbn. destruct (Z.eqb timeout 0), promise0; reflexivity.
Qed.

Lemma wwt_timers_before_armed : wwt_timers_before wwt_timers_armed.
Proof. unfold wwt_timers_before, wwt_timers_armed. destruct wwt_timer; auto. Qed.

Lemma wwt_timers_after_disarmed t cb :
  wwt_timers_after !! t = Some (Some cb) -> False.
Proof. unfold wwt_timers_after. by destruct wwt_timer, t as [|[|t]]. Qed.

Lemma run_wwt_await o a tp race subs arrs tms q n lg :
  wwt_timers_before tms ->
  exec (run_reaction wwt_await o)
    {| promises := [a; pending []; tp; race];
       emitters := subs; arrays := arrs; timers := tms;
       microtasks := q; next_object := n; log := lg |} =
  {| promises := [a; settled o; tp; race];
     emitters := subs; arrays := arrs; timers := wwt_timers_after;
     microtasks := q; next_object := n; log := lg ++ wwt_finally_log |}.
Proof.
  unfold wwt_timers_before, wwt_timers_after, wwt_finally_log, wwt_await, wwt_timer.
  intros Ht. cbn [truthy] in *. destruct (Z.eqb timeout 0); cbn in Ht.
  - subst tms. destruct o as [v|e]; js; by rewrite ?app_nil_r.
  - destruct Ht as [-> | ->]; destruct o as [v|e]; js; by rewrite ?app_nil_r.
Qed.

Ltac wwt_tac :=
  first [ eapply wwt_queued | eapply wwt_raced | eapply wwt_done ];
  eauto with wfe.

Lemma step_wwt_won a o s : wwt_won o s -> wwt_won o (step call_function 0 a s).
Proof.
  intros H. destruct a as [e n event|o'| |t].
  - (* Emit *)
    destruct e as [|e].
    + destruct H; cbn -[emitter_emit]; rewrite (emit_unsubscribed call_function foreign) by done;
        by constructor.
    + destruct H; cbn; by constructor.
  - (* the computation settles *)
    destruct H; destruct H as [-> | [? ->]]; cbn; try rewrite <- app_assoc; cbn; wwt_tac.
  - (* a promise job *)
    destruct H.
    + js. wwt_tac.
    + destruct q1 as [|[r o'] q1]; cbn -[run_reaction].
      * rewrite run_wwt_await by done. wwt_tac.
      * apply Forall_cons in H1 as [Hr H1]. cbn in Hr. subst r. js. wwt_tac.
    + destruct q as [|[r o'] q]; cbn -[run_reaction]; [wwt_tac|].
      apply Forall_cons in H1 as [Hr H1]. cbn in Hr. subst r. js. wwt_tac.
  - (* a timer task *)
    destruct H.
    + rewrite timer_blocked by done. wwt_tac.
    + rewrite timer_blocked by (by destruct q1). wwt_tac.
    + destruct q; [|rewrite timer_blocked by done; wwt_tac].
      cbn. destruct (wwt_timers_after !! t) as [[cb|]|] eqn:E; [|wwt_tac..].
      by apply wwt_timers_after_disarmed in E.
Qed.

Lemma run_wwt_won tr o s : wwt_won o s -> wwt_won o (run call_function 0 tr s).
Proof.
  revert s. induction tr as [|a tr IH]; intros s H; cbn; [done|].
  apply IH. by apply step_wwt_won.
Qed.

Lemma wwt_fired_won o s : wwt_fired o s -> wwt_won o s.
Proof. intros []. apply wwt_queued; eauto with wfe. Qed.

Lemma wwt_step_pending a :
  match wwt_fires a with
  | Some o => wwt_fired o (step call_function 0 a (wwt_start None))
  | None => step call_function 0 a (wwt_start None) = wwt_start None
  end.
Proof.
  rewrite wwt_start_eq. destruct a as [e n event|o| |t]; cbn -[emitter_emit].
  - destruct e as [|e]; cbn -[emitter_emit]; [|done].
    by rewrite (emit_unsubscribed call_function foreign).
  - js. constructor; eauto using wwt_timers_before_armed with wfe.
  - done.
  - unfold wwt_timers_armed, wwt_timer. cbn [truthy].
    destruct (Z.eqb_spec timeout 0) as [Hz|Hne]; cbn.
    + rewrite bool_decide_eq_false_2 by (by intros [_ ?]). by destruct t.
    + destruct t as [|t]; cbn.
      * rewrite bool_decide_eq_true_2 by done. js.
        constructor; eauto with wfe.
        unfold wwt_timers_before, wwt_timer. cbn [truthy].
        destruct (Z.eqb_spec timeout 0); [done|]. cbn. auto.
      * rewrite bool_decide_eq_false_2 by (by intros [? _]). by destruct t.
Qed.

Lemma wwt_run_pending tr :
  match wwt_winner tr with
  | Some o => wwt_won o (run call_function 0 tr (wwt_start None))
  | None => run call_function 0 tr (wwt_start None) = wwt_start None
  end.
Proof.
  induction tr as [|a tr IH]; cbn; [done|].
  pose proof (wwt_step_pending a) as Ha.
  destruct (wwt_fires a) as [o|].
  - by apply run_wwt_won, wwt_fired_won.
  - by rewrite Ha.
Qed.

Lemma wwt_start_settled o : wwt_fired o (wwt_start (Some o)).
Proof.
  rewrite wwt_start_eq. constructor; eauto using wwt_timers_before_armed with wfe.
Qed.

Lemma wwt_reachable promise0 tr :
  run call_function 0 tr (wwt_start promise0) = wwt_start None \/
  exists o, wwt_won o (run call_function 0 tr (wwt_start promise0)).
Proof.
  destruct promise0 as [o|].
  - right. exists o. apply run_wwt_won, wwt_fired_won, wwt_start_settled.
  - pose proof (wwt_run_pending tr) as H. destruct (wwt_winner tr) as [o|]; eauto.
Qed.

Lemma wwt_pending_unobserved : result_of (wwt_start None) = None.
Proof. by rewrite wwt_start_eq. Qed.

Lemma wwt_won_observed o s x :
  wwt_won o s -> result_of s = Some x -> x = o /\ wwt_cleaned s.
Proof.
  intros Hw Hx. destruct Hw; cbn in Hx; try discriminate. by injection Hx as <-.
Qed.

Lemma wwt_won_quiescent o s :
  wwt_won o s -> microtasks s = [] -> result_of s = Some o.
Proof.
  intros Hw Hq. destruct Hw; cbn in Hq; try discriminate; try (by destruct q1).
  by subst.
Qed.

Lemma wwt_won_completes o s :
  wwt_won o s ->
  (forall y, result_of s = Some y -> y = o /\ wwt_cleaned s) /\
  (microtasks s = [] -> result_of s = Some o).
Proof.
  intros Hw. split.
  - intros y Hy. by apply wwt_won_observed.
  - by apply wwt_won_quiescent.
Qed.

Lemma wwt_fired_two_jobs o s :
  wwt_fired o s ->
  result_of (run call_function 0 [Microtask; Microtask] s) = Some o.
Proof.
  intros [a tp tms Ha Hp Ht]. cbn -[run_reaction].
  rewrite run_race_pending. cbn -[run_reaction].
  by rewrite run_wwt_await.
Qed.

Lemma wwt_quiet_fires a : wwt_quiet a = true -> wwt_fires a = None.
Proof. by destruct a. Qed.

Lemma wwt_winner_quiet pre tr :
  forallb wwt_quiet pre = true -> wwt_winner (pre ++ tr) = wwt_winner tr.
Proof.
  induction pre as [|b pre IH]; cbn; [done|].
  intros [Hb Hpre]%andb_prop. by rewrite (wwt_quiet_fires b Hb), IH.
Qed.

Lemma wwt_run_quiet pre :
  forallb wwt_quiet pre = true ->
  run call_function 0 pre (wwt_start None) = wwt_start None.
Proof.
  intros H. pose proof (wwt_run_pending pre) as Hr.
  rewrite <- (app_nil_r pre), (wwt_winner_quiet pre [] H) in Hr. cbn in Hr.
  by rewrite app_nil_r in Hr.
Qed.

Lemma wwt_scenario_completes pre a o :
  forallb wwt_quiet pre = true -> wwt_fires a = Some o ->
  wwt_completes_with None (pre ++ [a]) o.
Proof.
  intros Hpre Ha. pose proof (wwt_step_pending a) as Hstep. rewrite Ha in Hstep.
  split.
  - rewrite <- app_assoc, run_app, wwt_run_quiet by done.
    change (run call_function 0 ([a] ++ ?l) ?s)
      with (run call_function 0 l (step call_function 0 a s)).
    by apply wwt_fired_two_jobs.
  - intros post. rewrite <- app_assoc, run_app, wwt_run_quiet by done.
    apply wwt_won_completes. cbn. by apply run_wwt_won, wwt_fired_won.
Qed.

Lemma wwt_settled_completes o : wwt_completes_with (Some o) [] o.
Proof.
  split.
  - apply wwt_fired_two_jobs, wwt_start_settled.
  - intros post. apply wwt_won_completes, run_wwt_won, wwt_fired_won, wwt_start_settled.
Qed.

Lemma wwt_won_effects o s :
  wwt_won o s ->
  (log s = wwt_log0 \/ log s = wwt_log0 ++ wwt_finally_log) /\
  (wwt_timers_before (timers s) \/ timers s = wwt_timers_after).
Proof. intros []; cbn; auto. Qed.

Lemma undecided_fires a : timeout = 0%Z -> undecided a = true -> wwt_fires a = None.
Proof.
  intros Hz. destruct a as [e n event|o| |t]; cbn; try done.
  intros _. by rewrite bool_decide_eq_false_2 by (by intros [_ ?]).
Qed.

Lemma undecided_run pre :
  timeout = 0%Z -> forallb undecided pre = true ->
  run call_function 0 pre (wwt_start None) = wwt_start None.
Proof.
  intros Hz. induction pre as [|a pre IH]; cbn; [done|].
  intros [Ha Hpre]%andb_prop.
  pose proof (wwt_step_pending a) as Hs.
  rewrite (undecided_fires a Hz Ha) in Hs. rewrite Hs. by apply IH.
Qed.

(** Without a timer only the computation can decide the race, and its
    outcome is the one of the race. *)
Lemma wwt_zero_reachable promise0 tr :
  timeout = 0%Z ->
  run call_function 0 tr (wwt_start promise0) = wwt_start None \/
  exists o, wwt_won o (run call_function 0 tr (wwt_start promise0)) /\
            promise_state 0 (run call_function 0 tr (wwt_start promise0)) = Some o.
Proof.
  intros Hz. destruct promise0 as [o|].
  - right. exists o. split.
    + apply run_wwt_won, wwt_fired_won, wwt_start_settled.
    + apply run_keeps_settled. by rewrite wwt_start_eq.
  - induction tr as [|a tr IH]; cbn; [by left|].
    pose proof (wwt_step_pending a) as Hs.
    destruct (wwt_fires a) as [o|] eqn:Ha.
    + right. exists o. split; [by apply run_wwt_won, wwt_fired_won|].
      apply run_keeps_settled.
      destruct a as [e n event|o'| |t]; cbn in Ha; try discriminate.
      * injection Ha as ->. rewrite wwt_start_eq. by js.
      * by rewrite bool_decide_eq_false_2 in Ha by (by intros [_ ?]).
    + by rewrite Hs.
Qed.

(** *** Comparison with awaiting the promise directly *)

Lemma lockstep_start promise0 :
  timeout = 0%Z -> lockstep (wwt_start promise0) (awd_start promise0).
Proof.
  intros Hz. unfold wwt_start, awd_start, waitWithTimeout, await_directly,
    async_function, boot.
  cbn [truthy]. rewrite Hz. destruct promise0 as [o|]; js; constructor.
Qed.

Lemma lockstep_step a sA sB :
  lockstep sA sB ->
  lockstep (step call_function 0 a sA) (step call_function 0 a sB).
Proof.
  intros H. destruct a as [e n event|o'| |t].
  - destruct e as [|e].
    + destruct H; cbn -[emitter_emit];
        rewrite !(emit_unsubscribed call_function foreign) by done; constructor.
    + destruct H; cbn; constructor.
  - destruct H; js; constructor.
  - destruct H; js; try constructor.
    all: destruct o as [v|e]; js; constructor.
  - destruct H; cbn; try constructor; destruct t; constructor.
Qed.

Lemma lockstep_run promise0 tr :
  timeout = 0%Z ->
  lockstep (run call_function 0 tr (wwt_start promise0))
           (run call_function 0 tr (awd_start promise0)).
Proof.
  intros Hz. pose proof (lockstep_start promise0 Hz) as H.
  revert H. generalize (wwt_start promise0) (awd_start promise0).
  induction tr as [|a tr IH]; intros sA sB H; cbn; [done|].
  by apply IH, lockstep_step.
Qed.

(** *** The claims about [waitWithTimeout] *)

(** C7. With a timeout [t > 0], an integer up to 2^53 where its text is
    its decimal digits: when the timer fires before the
    computation settles, the call fails with a [TimeoutError] whose
    message is "waiting for <taskName> failed: timeout <t>ms exceeded";
    when the computation settles first (or had settled before the call),
    the call settles with its very outcome, so that a failure of the
    computation is propagated as it is; and on every exit, in every state
    in which the caller's promise is settled, the calls made on the
    timers are one [setTimeout] followed by one [clearTimeout] of its
    handle, and no timer is armed. *)
Theorem waitWithTimeout_race :
  (0 < timeout <= 2 ^ 53)%Z ->
  (forall pre,
     forallb wwt_quiet pre = true ->
     wwt_completes_with None (pre ++ [TimerFires 0])
       (Rejected (VError n0 TimeoutErrorClass
                    ("waiting for " +:+ taskName +:+ " failed: timeout "
                     +:+ number_to_string timeout +:+ "ms exceeded")))) /\
  (forall pre o,
     forallb wwt_quiet pre = true ->
     wwt_completes_with None (pre ++ [ExternalSettles o]) o) /\
  (forall o, wwt_completes_with (Some o) [] o) /\
  (forall promise0 tr x,
     let s := run call_function 0 tr (wwt_start promise0) in
     result_of s = Some x ->
     log s = [Eff_setTimeout 0 timeout; Eff_clearTimeout (Some 0)] /\
     timers s = [None]).
Proof.
  intros Ht. split; [|split; [|split]].
  - intros pre Hpre.
    apply (wwt_scenario_completes pre (TimerFires 0) (Rejected wwt_timeout_error) Hpre).
    cbn. rewrite bool_decide_eq_true_2; [done|]. split; [done|lia].
  - intros pre o Hpre. by apply wwt_scenario_completes.
  - intros o. apply wwt_settled_completes.
  - intros promise0 tr x s Hx. subst s.
    destruct (wwt_reachable promise0 tr) as [Heq | [o Hw]].
    + rewrite Heq, wwt_pending_unobserved in Hx. discriminate.
    + destruct (wwt_won_observed o _ x Hw Hx) as (_ & -> & ->).
      unfold wwt_log0, wwt_finally_log, wwt_timers_after, wwt_timer. cbn [truthy].
      destruct (Z.eqb_spec timeout 0); [lia|done].
Qed.

(** C8. With timeout 0 no timer is ever armed ([setTimeout] is not
    called and the timer table stays empty, so that no timer task can
    touch the call), and the outcome of the call is the outcome of
    awaiting the promise directly.  On the same run: the caller's promise
    only ever settles with what the given promise settled with; once it
    has settled, the direct await has settled with the same outcome; once
    the direct await has settled, the call has settled with the same
    outcome or has a promise job left to run; and whenever no promise job
    is queued the two agree.  Two promise jobs after the given promise
    settles, however long that takes and whatever happens before, the
    caller's promise is settled with its outcome. *)
Theorem waitWithTimeout_zero :
  timeout = 0%Z ->
  (forall promise0 tr,
     let s := run call_function 0 tr (wwt_start promise0) in
     timers s = [] /\ log s = [] /\
     (forall x, result_of s = Some x -> promise_state 0 s = Some x) /\
     (microtasks s = [] -> result_of s = promise_state 0 s)) /\
  (forall promise0 tr,
     let s := run call_function 0 tr (wwt_start promise0) in
     let d := run call_function 0 tr (awd_start promise0) in
     (forall x, result_of s = Some x -> result_of d = Some x) /\
     (forall x, result_of d = Some x ->
        result_of s = Some x \/ (result_of s = None /\ microtasks s <> [])) /\
     (microtasks s = [] -> result_of s = result_of d)) /\
  (forall pre o,
     forallb undecided pre = true ->
     wwt_completes_with None (pre ++ [ExternalSettles o]) o) /\
  (forall o, wwt_completes_with (Some o) [] o).
Proof.
  intros Hz.
  assert (wwt_log0 = [] /\ wwt_finally_log = [] /\ wwt_timers_after = [] /\
          wwt_timers_armed = [] /\ forall tms, wwt_timers_before tms -> tms = [])
    as (Hl & Hf & Ha & Hb & Hc).
  { unfold wwt_log0, wwt_finally_log, wwt_timers_after, wwt_timers_armed,
      wwt_timers_before, wwt_timer. cbn [truthy]. by rewrite Hz. }
  split; [|split; [|split]].
  - intros promise0 tr s. subst s.
    destruct (wwt_zero_reachable promise0 tr Hz) as [Heq | (o & Hw & Hp)].
    + rewrite Heq, wwt_start_eq. cbn. by rewrite Hl, Hb.
    + destruct (wwt_won_effects o _ Hw) as [Hlog Htm].
      split; [|split; [|split]].
      * destruct Htm as [Htm | ->]; [by apply Hc|done].
      * destruct Hlog as [-> | ->]; by rewrite ?Hl, ?Hf.
      * intros x Hx. by destruct (wwt_won_observed o _ x Hw Hx) as (-> & _).
      * intros Hq. by rewrite (wwt_won_quiescent o _ Hw Hq).
  - intros promise0 tr s d. subst s d.
    destruct (lockstep_run promise0 tr Hz); cbn; repeat split; intros; try done.
    + right. by split.
    + by left.
  - intros pre o Hpre. split.
    + rewrite <- app_assoc, run_app, undecided_run by done.
      pose proof (wwt_step_pending (ExternalSettles o)) as Hs. cbn in Hs.
      by apply wwt_fired_two_jobs.
    + intros post. rewrite <- app_assoc, run_app, undecided_run by done.
      pose proof (wwt_step_pending (ExternalSettles o)) as Hs. cbn in Hs.
      apply wwt_won_completes. cbn -[step]. by apply run_wwt_won, wwt_fired_won.
  - apply wwt_settled_completes.
Qed.

End WaitWithTimeoutCall.

Lemma waitWithTimeout_race_witness :
  wwt_completes_with demo_call "nav" 30 [] 0 None
    ([Microtask; load (VNum 2)] ++ [TimerFires 0])
    (Rejected (VError 0 TimeoutErrorClass
                 "waiting for nav failed: timeout 30ms exceeded")) /\
  wwt_completes_with demo_call "nav" 30 [] 0 None
    ([Microtask] ++ [ExternalSettles (Rejected aborted)]) (Rejected aborted) /\
  (let s := run demo_call 0 [ExternalSettles (Fulfilled (VNum 4)); Microtask; Microtask]
              (wwt_start "nav" 30 [] 0 None) in
   log s = [Eff_setTimeout 0 30; Eff_clearTimeout (Some 0)] /\ timers s = [None]).
Proof.
  destruct (waitWithTimeout_race demo_call "nav" 30 [] 0) as (H1 & H2 & _ & H4); [lia|].
  split; [|split].
  - apply H1. reflexivity.
  - apply H2. reflexivity.
  - apply (H4 None _ (Fulfilled (VNum 4))). reflexivity.
Defined.

Lemma waitWithTimeout_zero_witness :
  let tr := [TimerFires 0; ExternalSettles (Fulfilled (VNum 4)); TimerFires 0;
             Microtask; Microtask] in
  let s := run demo_call 0 tr (wwt_start "nav" 0 [] 0 None) in
  let d := run demo_call 0 tr (awd_start [] 0 None) in
  (timers s = [] /\ log s = [] /\ promise_state 0 s = Some (Fulfilled (VNum 4))) /\
  result_of d = Some (Fulfilled (VNum 4)) /\
  wwt_completes_with demo_call "nav" 0 [] 0 None
    ([TimerFires 0; Microtask; TimerFires 1] ++ [ExternalSettles (Rejected aborted)])
    (Rejected aborted).
Proof.
  intros tr s d.
  destruct (waitWithTimeout_zero demo_call "nav" 0 [] 0) as (H1 & H2 & H3 & _);
    [reflexivity|].
  destruct (H1 None tr) as (Ht & Hl & Hp & _).
  destruct (H2 None tr) as (Hd & _).
  split; [|split].
  - split; [exact Ht|]. split; [exact Hl|]. apply Hp. reflexivity.
  - apply Hd. reflexivity.
  - apply H3. reflexivity.
Defined.

(** ** Removing a batch of listeners *)

(** Number of subscriptions equal to [x] in a subscription list, and
    number of handles of a batch that designate the subscription [x] on
    the emitter [e]. *)
Definition occurrences (x : event_name * listener_fn)
    (subs : list (event_name * listener_fn)) : nat :=
  length (filter (fun y => y = x) subs).
Definition handles_for (e : eid) (x : event_name * listener_fn)
    (batch : list RegisteredListener) : nat :=
  length (filter (fun h => emitter h = e /\ (eventName h, handler h) = x) batch).

(** The emitters after each handle of a batch has been unsubscribed. *)
Definition unsubscribe (ems : list (list (event_name * listener_fn)))
    (h : RegisteredListener) : list (list (event_name * listener_fn)) :=
  match ems !! emitter h with
  | Some subs => <[emitter h := remove_last (eventName h, handler h) subs]> ems
  | None => ems
  end.
Definition unsubscribe_all (batch : list RegisteredListener)
    (ems : list (list (event_name * listener_fn))) : list (list (event_name * listener_fn)) :=
  fold_left unsubscribe batch ems.

Definition removal_of (h : RegisteredListener) : effect :=
  Eff_removeListener (emitter h) (eventName h) (handler h).

Lemma occurrences_cons x y subs :
  occurrences x (y :: subs) = (if decide (y = x) then 1 else 0) + occurrences x subs.
Proof. unfold occurrences. rewrite filter_cons. by destruct (decide (y = x)). Qed.

Lemma occurrences_elem x subs : x ∈ subs -> 1 <= occurrences x subs.
Proof.
  induction subs as [|y subs IH]; [by intros ?%elem_of_nil|].
  rewrite occurrences_cons. intros [->|H]%elem_of_cons.
  - rewrite decide_True by done. lia.
  - specialize (IH H). lia.
Qed.

Lemma occurrences_not_elem x subs : x ∉ subs -> occurrences x subs = 0.
Proof.
  induction subs as [|y subs IH]; [done|].
  rewrite occurrences_cons. intros [Hne H]%not_elem_of_cons.
  rewrite decide_False by done. by rewrite IH.
Qed.

(** [removeListener] takes away one subscription equal to the given one
    when there is one, and nothing else. *)
Lemma occurrences_remove_last x y subs :
  occurrences x (remove_last y subs) =
  if decide (x = y) then pred (occurrences x subs) else occurrences x subs.
Proof.
  induction subs as [|z subs IH]; cbn [remove_last]; [by destruct (decide (x = y))|].
  destruct (decide (y ∈ subs)) as [Hin|Hnin].
  - rewrite bool_decide_eq_true_2 by done. rewrite !occurrences_cons, IH.
    destruct (decide (x = y)) as [->|Hne]; [|done].
    pose proof (occurrences_elem y subs Hin). lia.
  - rewrite bool_decide_eq_false_2 by done.
    destruct (decide (y = z)) as [<-|Hne].
    + rewrite bool_decide_eq_true_2 by done. rewrite occurrences_cons.
      destruct (decide (x = y)) as [->|Hxy].
      * rewrite decide_True by done. done.
      * rewrite decide_False by done. done.
    + rewrite bool_decide_eq_false_2 by done.
      destruct (decide (x = y)) as [->|Hxy]; [|done].
      rewrite occurrences_cons, decide_False by done.
      by rewrite (occurrences_not_elem y subs Hnin).
Qed.

Lemma unsubscribe_length ems h : length (unsubscribe ems h) = length ems.
Proof. unfold unsubscribe. destruct (ems !! emitter h); [apply length_insert|done]. Qed.

Lemma unsubscribe_lookup ems h e subs :
  ems !! e = Some subs ->
  unsubscribe ems h !! e =
  Some (if decide (emitter h = e) then remove_last (eventName h, handler h) subs
        else subs).
Proof.
  intros He. unfold unsubscribe. destruct (decide (emitter h = e)) as [->|Hne].
  - rewrite He. apply list_lookup_insert_eq. by eapply lookup_lt_Some.
  - destruct (ems !! emitter h); [|done]. by rewrite list_lookup_insert_ne.
Qed.

Lemma handles_for_cons e x h batch :
  handles_for e x (h :: batch) =
  (if decide (emitter h = e /\ (eventName h, handler h) = x) then 1 else 0)
  + handles_for e x batch.
Proof.
  unfold handles_for. rewrite filter_cons.
  by destruct (decide (emitter h = e /\ (eventName h, handler h) = x)).
Qed.

Lemma unsubscribe_all_occurrences batch ems e subs :
  ems !! e = Some subs ->
  exists subs',
    unsubscribe_all batch ems !! e = Some subs' /\
    forall x, occurrences x subs' = occurrences x subs - handles_for e x batch.
Proof.
  revert ems subs. induction batch as [|h batch IH]; intros ems subs He.
  - exists subs. split; [done|]. intros x. unfold handles_for. cbn. lia.
  - destruct (IH _ _ (unsubscribe_lookup ems h e subs He)) as (subs' & Hl & Hc).
    exists subs'. split; [done|]. intros x. rewrite Hc, handles_for_cons.
    destruct (decide (emitter h = e)) as [Heq|Hne].
    + rewrite occurrences_remove_last.
      destruct (decide (x = (eventName h, handler h))) as [->|Hx].
      * rewrite decide_True by done. lia.
      * rewrite decide_False by (by intros [_ ?]). lia.
    + rewrite decide_False by (by intros [? _]). lia.
Qed.

(** The loop of [removeEventListeners] over handles whose emitters
    exist: every call of [removeListener] returns, the emitters are
    updated handle by handle and the calls are logged in order. *)
Lemma remove_loop batch s :
  Forall (fun h => emitter h < length (emitters s)) batch ->
  for_of batch (fun listener =>
      emitter_removeListener (emitter listener) (eventName listener) (handler listener)) s =
  (Ok tt,
   {| promises := promises s; emitters := unsubscribe_all batch (emitters s);
      arrays := arrays s; timers := timers s; microtasks := microtasks s;
      next_object := next_object s; log := log s ++ map removal_of batch |}).
Proof.
  revert s. induction batch as [|h batch IH]; intros s Hv.
  - cbn. rewrite app_nil_r. by destruct s.
  - apply Forall_cons in Hv as [Hh Hv].
    destruct (lookup_lt_is_Some_2 _ _ Hh) as [subs Hsubs].
    cbn [for_of]. unfold bind at 1.
    assert (emitter_removeListener (emitter h) (eventName h) (handler h) s =
            (Ok tt, {| promises := promises s; emitters := unsubscribe (emitters s) h;
                       arrays := arrays s; timers := timers s;
                       microtasks := microtasks s; next_object := next_object s;
                       log := log s ++ [removal_of h] |})) as ->.
    { unfold emitter_removeListener, unsubscribe, bind, get. cbn beta iota.
      by rewrite Hsubs. }
    rewrite IH; cbn.
    + by rewrite <- app_assoc.
    + by rewrite unsubscribe_length.
Qed.

(** C9. For a batch held in an array of the heap, all of whose handles
    designate an existing emitter, [removeEventListeners] returns without
    throwing; it has called [removeListener] once per handle, in order,
    which takes from each emitter one subscription per handle that
    designates it (as far as there are any), and has emptied the array in
    place, every other array and the rest of the state being untouched.
    On an empty batch the state is unchanged; and a second call on the
    drained batch returns without throwing and leaves the state, with the
    array still empty, as it is. *)
Theorem removeEventListeners_drains s listeners batch :
  arrays s !! listeners = Some batch ->
  Forall (fun h => emitter h < length (emitters s)) batch ->
  exists s',
    removeEventListeners listeners s = (Ok tt, s') /\
    arrays s' = <[listeners := []]> (arrays s) /\
    arrays s' !! listeners = Some [] /\
    log s' = log s ++ map removal_of batch /\
    (forall e subs,
       emitters s !! e = Some subs ->
       exists subs',
         emitters s' !! e = Some subs' /\
         forall x, occurrences x subs' = occurrences x subs - handles_for e x batch) /\
    (promises s' = promises s /\ timers s' = timers s /\
     microtasks s' = microtasks s /\ next_object s' = next_object s) /\
    (batch = [] -> s' = s) /\
    removeEventListeners listeners s' = (Ok tt, s').
Proof.
  intros Hb Hv.
  pose proof (lookup_lt_Some _ _ _ Hb) as Hlt.
  exists {| promises := promises s; emitters := unsubscribe_all batch (emitters s);
            arrays := <[listeners := []]> (arrays s); timers := timers s;
            microtasks := microtasks s; next_object := next_object s;
            log := log s ++ map removal_of batch |}.
  split; [|split; [|split; [|split; [|split; [|split; [|split]]]]]]; cbn.
  - unfold removeEventListeners, read_array, splice, read_array, bind, get, deref.
    rewrite Hb. cbn. rewrite remove_loop by done. cbn. rewrite Hb. cbn.
    rewrite Hb. cbn. by rewrite drop_all.
  - done.
  - by apply list_lookup_insert_eq.
  - done.
  - intros e subs He. by apply unsubscribe_all_occurrences.
  - done.
  - intros ->. destruct s; cbn in *. rewrite app_nil_r.
    by rewrite list_insert_id.
  - unfold removeEventListeners, read_array, splice, read_array, bind, get, deref.
    cbn. repeat (rewrite list_lookup_insert_eq by done; cbn).
    unfold modify. cbn. by rewrite list_insert_insert_eq.
Qed.

(** A registry with two emitters and a batch of three handles, the last
    two designating the same single subscription. *)
Definition registry_batch : list RegisteredListener :=
  [ Build_RegisteredListener 0 (EvString "a") (ForeignHandler 1);
    Build_RegisteredListener 1 (EvString "b") (ForeignHandler 1);
    Build_RegisteredListener 1 (EvString "b") (ForeignHandler 1) ].

Definition registry_state : state :=
  {| promises := [];
     emitters := [ [(EvString "a", ForeignHandler 1); (EvString "a", ForeignHandler 2);
                    (EvString "a", ForeignHandler 1)];
                   [(EvString "b", ForeignHandler 1)] ];
     arrays := [registry_batch]; timers := []; microtasks := [];
     next_object := 0; log := [] |}.

Example removeEventListeners_run :
  removeEventListeners 0 registry_state =
  (Ok tt,
   {| promises := [];
      emitters := [ [(EvString "a", ForeignHandler 1); (EvString "a", ForeignHandler 2)];
                    [] ];
      arrays := [[]]; timers := []; microtasks := []; next_object := 0;
      log := map removal_of registry_batch |}).
Proof. reflexivity. Qed.

Lemma removeEventListeners_drains_witness :
  exists s',
    removeEventListeners 0 registry_state = (Ok tt, s') /\
    arrays s' = <[0 := []]> (arrays registry_state) /\
    arrays s' !! 0 = Some [] /\
    log s' = log registry_state ++ map removal_of registry_batch /\
    (forall e subs,
       emitters registry_state !! e = Some subs ->
       exists subs',
         emitters s' !! e = Some subs' /\
         forall x, occurrences x subs' =
                   occurrences x subs - handles_for e x registry_batch) /\
    (promises s' = promises registry_state /\ timers s' = timers registry_state /\
     microtasks s' = microtasks registry_state /\
     next_object s' = next_object registry_state) /\
    (registry_batch = [] -> s' = registry_state) /\
    removeEventListeners 0 s' = (Ok tt, s').
Proof.
  apply (removeEventListeners_drains registry_state 0 registry_batch).
  - reflexivity.
  - repeat constructor.
Defined.

(** ** More on the listener registry *)

(** Registering a batch, as the users of the registry do:
    [regs.map(r => helper.addEventListener(r.emitter, r.eventName, r.handler))]. *)
Fixpoint addEventListeners (regs : list RegisteredListener) : M (list RegisteredListener) :=
  match regs with
  | [] => ret []
  | r :: regs' =>
      h <- addEventListener (emitter r) (eventName r) (handler r) ;;
      hs <- addEventListeners regs' ;;
      ret (h :: hs)
  end.

(** The emitters after each registration of a batch has been subscribed. *)
Definition subscribe (ems : list (list (event_name * listener_fn)))
    (r : RegisteredListener) : list (list (event_name * listener_fn)) :=
  match ems !! emitter r with
  | Some subs => <[emitter r := subs ++ [(eventName r, handler r)]]> ems
  | None => ems
  end.
Definition subscribe_all (regs : list RegisteredListener)
    (ems : list (list (event_name * listener_fn))) : list (list (event_name * listener_fn)) :=
  fold_left subscribe regs ems.

Definition subscription_of (r : RegisteredListener) : effect :=
  Eff_on (emitter r) (eventName r) (handler r).

(** The subscriptions a batch holds on emitter [e], in order. *)
Definition batch_on (e : eid) (batch : list RegisteredListener)
  : list (event_name * listener_fn) :=
  map (fun r => (eventName r, handler r)) (filter (fun r => emitter r = e) batch).

Definition remove_all_last (xs subs : list (event_name * listener_fn))
  : list (event_name * listener_fn) :=
  fold_left (fun acc x => remove_last x acc) xs subs.

Lemma remove_last_app_r {A} `{EqDecision A} (x : A) (l m : list A) :
  x ∈ m -> remove_last x (l ++ m) = l ++ remove_last x m.
Proof.
  intros Hx. induction l as [|y l IH]; [done|]. cbn.
  rewrite bool_decide_eq_true_2; [by rewrite IH|].
  apply elem_of_app. by right.
Qed.

Lemma remove_last_perm {A} `{EqDecision A} (x : A) (m : list A) :
  x ∈ m -> x :: remove_last x m ≡ₚ m.
Proof.
  induction m as [|y m IH]; [by intros ?%elem_of_nil|].
  intros Hx. cbn. destruct (decide (x ∈ m)) as [Hin|Hnin].
  - rewrite bool_decide_eq_true_2 by done.
    rewrite Permutation_swap. by rewrite (IH Hin).
  - rewrite bool_decide_eq_false_2 by done.
    apply elem_of_cons in Hx as [->|Hx]; [|done].
    by rewrite bool_decide_eq_true_2.
Qed.

Lemma remove_last_sublist {A} `{EqDecision A} (x : A) (l : list A) :
  remove_last x l `sublist_of` l.
Proof.
  induction l as [|y l IH]; cbn; [done|].
  case_bool_decide; [by apply sublist_skip|].
  case_bool_decide; [by apply sublist_cons|done].
Qed.

(** Unsubscribing, latest first, what was appended (in whatever order)
    gives back the list there was before. *)
Lemma remove_all_last_appended xs m l :
  m ≡ₚ xs -> remove_all_last xs (l ++ m) = l.
Proof.
  revert m. induction xs as [|x xs IH]; intros m Hm.
  - apply Permutation_nil_r in Hm as ->. cbn. by rewrite app_nil_r.
  - assert (x ∈ m) as Hx by (rewrite Hm; apply elem_of_cons; by left).
    cbn. rewrite remove_last_app_r by done. apply IH.
    apply (Permutation_cons_inv (a:=x)).
    by rewrite remove_last_perm.
Qed.

Lemma subscribe_length ems r : length (subscribe ems r) = length ems.
Proof. unfold subscribe. destruct (ems !! emitter r); [apply length_insert|done]. Qed.

Lemma subscribe_all_length regs ems : length (subscribe_all regs ems) = length ems.
Proof.
  revert ems. induction regs as [|r regs IH]; intros ems; cbn; [done|].
  unfold subscribe_all in IH. by rewrite IH, subscribe_length.
Qed.

Lemma unsubscribe_all_length batch ems : length (unsubscribe_all batch ems) = length ems.
Proof.
  revert ems. induction batch as [|h batch IH]; intros ems; cbn; [done|].
  unfold unsubscribe_all in IH. by rewrite IH, unsubscribe_length.
Qed.

Lemma batch_on_cons e r batch :
  batch_on e (r :: batch) =
  (if decide (emitter r = e) then [(eventName r, handler r)] else []) ++ batch_on e batch.
Proof.
  unfold batch_on. rewrite filter_cons. by destruct (decide (emitter r = e)).
Qed.

Lemma subscribe_all_lookup regs ems e subs :
  ems !! e = Some subs ->
  subscribe_all regs ems !! e = Some (subs ++ batch_on e regs).
Proof.
  revert ems subs. induction regs as [|r regs IH]; intros ems subs He.
  - cbn. by rewrite app_nil_r.
  - change (subscribe_all (r :: regs) ems) with (subscribe_all regs (subscribe ems r)).
    rewrite batch_on_cons. unfold subscribe.
    destruct (decide (emitter r = e)) as [Heq|Hne].
    + rewrite Heq, He. rewrite app_assoc. apply IH.
      apply list_lookup_insert_eq. by eapply lookup_lt_Some.
    + destruct (ems !! emitter r); apply IH; [|done].
      by rewrite list_lookup_insert_ne.
Qed.

Lemma unsubscribe_all_lookup batch ems e subs :
  ems !! e = Some subs ->
  unsubscribe_all batch ems !! e = Some (remove_all_last (batch_on e batch) subs).
Proof.
  revert ems subs. induction batch as [|h batch IH]; intros ems subs He; [done|].
  change (unsubscribe_all (h :: batch) ems)
    with (unsubscribe_all batch (unsubscribe ems h)).
  rewrite batch_on_cons.
  rewrite (IH _ _ (unsubscribe_lookup ems h e subs He)).
  by destruct (decide (emitter h = e)).
Qed.

(** Unsubscribing a batch from the emitters it has just been subscribed
    to gives back the emitters there were. *)
Lemma unsubscribe_subscribe_all regs ems :
  unsubscribe_all regs (subscribe_all regs ems) = ems.
Proof.
  apply list_eq. intros e. destruct (ems !! e) as [subs|] eqn:He.
  - rewrite (unsubscribe_all_lookup _ _ _ _ (subscribe_all_lookup regs ems e subs He)).
    by rewrite remove_all_last_appended.
  - apply lookup_ge_None. rewrite unsubscribe_all_length, subscribe_all_length.
    by apply lookup_ge_None.
Qed.

(** The loop of registrations over existing emitters: every call of
    [on] returns, and the handles are the registrations. *)
Lemma add_loop regs s :
  Forall (fun r => emitter r < length (emitters s)) regs ->
  addEventListeners regs s =
  (Ok regs,
   {| promises := promises s; emitters := subscribe_all regs (emitters s);
      arrays := arrays s; timers := timers s; microtasks := microtasks s;
      next_object := next_object s; log := log s ++ map subscription_of regs |}).
Proof.
  revert s. induction regs as [|r regs IH]; intros s Hv.
  - cbn. rewrite app_nil_r. by destruct s.
  - apply Forall_cons in Hv as [Hr Hv].
    destruct (lookup_lt_is_Some_2 _ _ Hr) as [subs Hsubs].
    cbn [addEventListeners]. unfold bind at 1.
    assert (addEventListener (emitter r) (eventName r) (handler r) s =
            (Ok r, {| promises := promises s; emitters := subscribe (emitters s) r;
                      arrays := arrays s; timers := timers s;
                      microtasks := microtasks s; next_object := next_object s;
                      log := log s ++ [subscription_of r] |})) as ->.
    { unfold addEventListener, emitter_on, subscribe, bind, get. cbn beta iota.
      rewrite Hsubs. by destruct r. }
    unfold bind. rewrite IH; cbn.
    + by rewrite <- app_assoc.
    + by rewrite subscribe_length.
Qed.

Lemma removeEventListeners_result s listeners batch :
  arrays s !! listeners = Some batch ->
  Forall (fun h => emitter h < length (emitters s)) batch ->
  removeEventListeners listeners s =
  (Ok tt,
   {| promises := promises s; emitters := unsubscribe_all batch (emitters s);
      arrays := <[listeners := []]> (arrays s); timers := timers s;
      microtasks := microtasks s; next_object := next_object s;
      log := log s ++ map removal_of batch |}).
Proof.
  intros Hb Hv.
  unfold removeEventListeners, read_array, splice, read_array, bind, get, deref.
  rewrite Hb. cbn. rewrite remove_loop by done. cbn. rewrite Hb. cbn.
  rewrite Hb. cbn. by rewrite drop_all.
Qed.

Lemma remove_all_last_sublist xs subs : remove_all_last xs subs `sublist_of` subs.
Proof.
  revert subs. induction xs as [|x xs IH]; intros subs; [done|].
  cbn. etrans; [apply IH|apply remove_last_sublist].
Qed.

Lemma listeners_of_sublist n subs' subs :
  subs' `sublist_of` subs -> listeners_of n subs' `sublist_of` listeners_of n subs.
Proof.
  unfold listeners_of. induction 1 as [|x l1 l2 _ IH|x l1 l2 _ IH]; [done| |].
  - rewrite !filter_cons. destruct (decide (x.1 = n)); cbn; [by apply sublist_skip|done].
  - rewrite filter_cons. destruct (decide (x.1 = n)); cbn; [by apply sublist_cons|done].
Qed.

(** Subscribing a batch, keeping the handles in an array, and removing
    the batch. *)
Definition register_then_remove (regs : list RegisteredListener) : M aref :=
  handles <- addEventListeners regs ;;
  listeners <- new_array handles ;;
  removeEventListeners listeners ;;
  ret listeners.

(** In the model of the emitter the round trip gives back the very
    lists: the subscriptions appended are the ones taken away. *)
Lemma register_then_remove_result s regs :
  Forall (fun r => emitter r < length (emitters s)) regs ->
  register_then_remove regs s =
  (Ok (length (arrays s)),
   {| promises := promises s; emitters := emitters s;
      arrays := arrays s ++ [[]]; timers := timers s;
      microtasks := microtasks s; next_object := next_object s;
      log := log s ++ map subscription_of regs ++ map removal_of regs |}).
Proof.
  intros Hv. unfold register_then_remove, bind. rewrite add_loop by done.
  unfold new_array, bind, get, modify, ret. cbn.
  rewrite removeEventListeners_result with (batch := regs); cbn.
  - rewrite unsubscribe_subscribe_all, <- app_assoc.
    by rewrite insert_app_r_alt, Nat.sub_diag.
  - by rewrite lookup_app_r, Nat.sub_diag.
  - by rewrite subscribe_all_length.
Qed.

(** X1. Handles obtained from [addEventListener] and handed back to
    [removeEventListeners] undo the registrations: whatever the emitters
    held before (also subscriptions equal to the new ones) and whatever
    the batch repeats, every emitter ends holding every subscription as
    many times as it held it before, and no emitter appears or
    disappears; the calls made are one [on] per registration, in order,
    then one [removeListener] per handle with the same emitter, event
    name and handler, in order; the array of handles is empty and the
    rest of the state untouched. *)
Theorem register_then_remove_restores s regs :
  Forall (fun r => emitter r < length (emitters s)) regs ->
  exists s',
    register_then_remove regs s = (Ok (length (arrays s)), s') /\
    arrays s' = arrays s ++ [[]] /\
    length (emitters s') = length (emitters s) /\
    (forall e subs,
       emitters s !! e = Some subs ->
       exists subs',
         emitters s' !! e = Some subs' /\
         forall x, occurrences x subs' = occurrences x subs) /\
    log s' = log s ++ map subscription_of regs ++ map removal_of regs /\
    (promises s' = promises s /\ timers s' = timers s /\
     microtasks s' = microtasks s /\ next_object s' = next_object s).
Proof.
  intros Hv. eexists. split; [by apply register_then_remove_result|]. cbn.
  repeat split. intros e subs He. by exists subs.
Qed.

(** X2. [removeEventListeners] only takes subscriptions away: it leaves
    on every emitter a sublist of the subscriptions there were, so the
    listeners that remain are called in the order they were called in
    before, and no emitter appears or disappears. *)
Theorem removeEventListeners_keeps_order s listeners batch :
  arrays s !! listeners = Some batch ->
  Forall (fun h => emitter h < length (emitters s)) batch ->
  exists s',
    removeEventListeners listeners s = (Ok tt, s') /\
    length (emitters s') = length (emitters s) /\
    forall e subs,
      emitters s !! e = Some subs ->
      exists subs',
        emitters s' !! e = Some subs' /\ subs' `sublist_of` subs /\
        forall n, listeners_of n subs' `sublist_of` listeners_of n subs.
Proof.
  intros Hb Hv. eexists. split; [by apply removeEventListeners_result|].
  cbn. split; [apply unsubscribe_all_length|].
  intros e subs He. eexists. split; [by apply unsubscribe_all_lookup|].
  pose proof (remove_all_last_sublist (batch_on e batch) subs) as Hsub.
  split; [done|]. intros n. by apply listeners_of_sublist.
Qed.

Lemma register_then_remove_restores_witness :
  exists s',
    register_then_remove registry_batch registry_state =
      (Ok (length (arrays registry_state)), s') /\
    arrays s' = arrays registry_state ++ [[]] /\
    length (emitters s') = length (emitters registry_state) /\
    (forall e subs,
       emitters registry_state !! e = Some subs ->
       exists subs',
         emitters s' !! e = Some subs' /\
         forall x, occurrences x subs' = occurrences x subs) /\
    log s' = log registry_state ++ map subscription_of registry_batch
             ++ map removal_of registry_batch /\
    (promises s' = promises registry_state /\ timers s' = timers registry_state /\
     microtasks s' = microtasks registry_state /\
     next_object s' = next_object registry_state).
Proof.
  apply (register_then_remove_restores registry_state registry_batch).
  repeat constructor.
Defined.

Lemma removeEventListeners_keeps_order_witness :
  exists s',
    removeEventListeners 0 registry_state = (Ok tt, s') /\
    length (emitters s') = length (emitters registry_state) /\
    forall e subs,
      emitters registry_state !! e = Some subs ->
      exists subs',
        emitters s' !! e = Some subs' /\ subs' `sublist_of` subs /\
        forall n, listeners_of n subs' `sublist_of` listeners_of n subs.
Proof.
  apply (removeEventListeners_keeps_order registry_state 0 registry_batch).
  - reflexivity.
  - repeat constructor.
Defined.

(** ** More on [waitForEvent] *)


Section WaitForEventMore.
Variable call_function : fn_ref -> value -> result value.
Variables (eventName : event_name) (predicate : fn_ref) (timeout : Z)
  (foreign : list (event_name * nat)) (n0 : nat).

#[local] Abbreviation Start := (wfe_start eventName predicate timeout foreign n0).
#[local] Abbreviation Won := (won eventName predicate timeout foreign).
#[local] Abbreviation Winner := (winner call_function eventName predicate timeout n0).
#[local] Abbreviation Fires := (wfe_fires call_function eventName predicate timeout n0).
#[local] Abbreviation Quiet := (quiet call_function eventName predicate).
#[local] Abbreviation Completes :=
  (completes_with call_function eventName predicate timeout foreign n0).
#[local] Abbreviation Log0 := (wfe_log0 eventName predicate timeout).
#[local] Abbreviation CleanupLog := (wfe_cleanup_log eventName predicate timeout).
#[local] Abbreviation Subscribed := (wfe_subscribed eventName predicate foreign).
#[local] Abbreviation Run := (run call_function 0).

(** An action that cannot complete the wait: a quiet one, or the task of
    a timer the call has not armed. *)
Definition idle (a : action) : bool :=
  match a with
  | TimerFires t => bool_decide (timeout = 0%Z \/ t <> 0)
  | _ => Quiet a
  end.

Lemma idle_fires a : idle a = true -> Fires a = None.
Proof.
  destruct a as [e n event|o| |t]; try apply quiet_fires.
  cbn. intros [Hz|Ht]%bool_decide_eq_true.
  - by rewrite bool_decide_eq_false_2 by (by intros [_ ?]).
  - by rewrite bool_decide_eq_false_2 by (by intros [? _]).
Qed.



Lemma won_lifetime o s :
  Won o s ->
  match promise_state 4 s with
  | None => emitters s = [Subscribed] /\ log s = Log0
  | Some _ => emitters s = [foreign_subscriptions foreign] /\
              log s = Log0 ++ CleanupLog
  end.
Proof. by intros []. Qed.

(** X5. As long as nothing completes it, the wait is exactly as the
    call left it: events under other names or on other emitters, events
    the predicate does not accept, promise jobs and, when the timeout is
    0, timer tasks leave the promise pending, the handler subscribed and
    nothing cleaned up, however many of them there are. *)
Theorem waitForEvent_stays_pending tr :
  forallb idle tr = true ->
  Run tr (Start None) = Start None /\
  result_of (Run tr (Start None)) = None /\
  emitters (Run tr (Start None)) = [Subscribed].
Proof.
  intros Htr.
  assert (Run tr (Start None) = Start None) as ->.
  { induction tr as [|a tr IH]; [done|].
    cbn in Htr. apply andb_prop in Htr as [Ha Htr]. cbn.
    pose proof (step_pending call_function eventName predicate timeout foreign n0 a) as Hs.
    rewrite (idle_fires a Ha) in Hs. rewrite Hs. by apply IH. }
  split; [done|]. by rewrite wfe_start_eq.
Qed.

(** X6. When the abort promise is rejected while the wait is pending, or
    had been rejected before the call, the wait fails with the reason of
    the rejection, whatever kind of value it is, cleanup having run. *)
Theorem waitForEvent_abort_rejected e :
  (forall pre,
     forallb (quiet call_function eventName predicate) pre = true ->
     completes_with call_function eventName predicate timeout foreign n0
       None (pre ++ [ExternalSettles (Rejected e)]) (Rejected e)) /\
  completes_with call_function eventName predicate timeout foreign n0
    (Some (Rejected e)) [] (Rejected e).
Proof.
  split.
  - intros pre Hpre.
    by apply (scenario_completes _ _ _ _ _ _ pre (ExternalSettles (Rejected e))
                (Rejected e)).
  - apply (aborted_completes _ _ _ _ _ _ (Rejected e)).
Qed.


(** X8. A negative timeout arms the timer as a positive one does (the
    test is [if (timeout)]): [setTimeout] is called with it, and when
    that timer fires while the wait is pending the wait fails with the
    Timeout error. *)
Theorem waitForEvent_negative_timeout pre :
  (timeout < 0)%Z ->
  forallb Quiet pre = true ->
  log (Start None) = [Eff_on 0 eventName (WaitForEventHandler predicate 2);
                      Eff_setTimeout 0 timeout] /\
  Completes None (pre ++ [TimerFires 0])
    (Rejected (VError n0 TimeoutErrorClass
                 ("Timeout exceeded while waiting for " +:+ String_of eventName))).
Proof.
  intros Ht Hpre. split.
  - rewrite wfe_start_eq. unfold wfe_log0. cbn.
    destruct (Z.eqb_spec timeout 0); [lia|done].
  - apply (scenario_completes _ _ _ _ _ _ pre (TimerFires 0)
             (Rejected (wfe_timeout_error eventName n0)) Hpre).
    cbn. rewrite bool_decide_eq_true_2; [done|]. split; [done|lia].
Qed.

(** X9. The handler is subscribed, and the timer left alone, for as long
    as the promise derived by [.then] is pending, so that no event is
    missed before a source completes the wait and its report has been
    handled; from then on the handler is gone and the timer cleared.
    At no point are the subscriptions of the others touched. *)
Theorem waitForEvent_listener_lifetime abort0 tr :
  let s := Run tr (Start abort0) in
  match promise_state 4 s with
  | None =>
      emitters s = [foreign_subscriptions foreign
                    ++ [(eventName, WaitForEventHandler predicate 2)]] /\
      removals (log s) = 0 /\ clears (log s) = 0
  | Some _ =>
      emitters s = [foreign_subscriptions foreign] /\
      removals (log s) = 1 /\ clears (log s) = 1
  end.
Proof.
  intros s. subst s.
  destruct (reachable call_function eventName predicate timeout foreign n0 abort0 tr)
    as [Heq | [o Hw]].
  - rewrite Heq, wfe_start_eq. cbn -[wfe_log0 removals clears].
    by rewrite removals_log0, clears_log0.
  - pose proof (won_lifetime o _ Hw) as H.
    destruct (promise_state 4 _); destruct H as [-> ->].
    + by rewrite removals_cleaned, clears_cleaned.
    + by rewrite removals_log0, clears_log0.
Qed.

End WaitForEventMore.

Lemma waitForEvent_stays_pending_witness :
  let tr := [load (VNum 1); Emit 0 (EvString "other") (VNum 2); Microtask;
             TimerFires 1; load (VNum 3)] in
  let start := wfe_start (EvString "load") 0 1000 [(EvString "load", 3)] 0 None in
  run demo_call 0 tr start = start /\
  result_of (run demo_call 0 tr start) = None /\
  emitters (run demo_call 0 tr start) =
    [wfe_subscribed (EvString "load") 0 [(EvString "load", 3)]].
Proof.
  intros tr start.
  apply (waitForEvent_stays_pending demo_call (EvString "load") 0 1000
           [(EvString "load", 3)] 0 tr). vm_compute. reflexivity.
Defined.
Lemma waitForEvent_abort_rejected_witness :
  completes_with demo_call (EvString "load") 0 1000 [(EvString "load", 3)] 0 None
    ([load (VNum 1)] ++ [ExternalSettles (Rejected (VStr "stop"))])
    (Rejected (VStr "stop")).
Proof.
  destruct (waitForEvent_abort_rejected demo_call (EvString "load") 0 1000
              [(EvString "load", 3)] 0 (VStr "stop")) as [H _].
  apply H. reflexivity.
Defined.

Lemma waitForEvent_negative_timeout_witness :
  log (wfe_start (EvString "load") 0 (-5) [(EvString "load", 3)] 0 None) =
    [Eff_on 0 (EvString "load") (WaitForEventHandler 0 2); Eff_setTimeout 0 (-5)] /\
  completes_with demo_call (EvString "load") 0 (-5) [(EvString "load", 3)] 0 None
    ([load (VNum 1)] ++ [TimerFires 0])
    (Rejected (VError 0 TimeoutErrorClass
                 ("Timeout exceeded while waiting for " +:+ String_of (EvString "load")))).
Proof.
  apply (waitForEvent_negative_timeout demo_call (EvString "load") 0 (-5)
           [(EvString "load", 3)] 0); [lia|reflexivity].
Defined.

(** ** More on [waitWithTimeout] *)

Definition wwt_jobs_left (s : state) : nat :=
  length (microtasks s) + (if promise_state 3 s is None then 1 else 0).

Section WaitWithTimeoutMore.
Variable call_function : fn_ref -> value -> result value.
Variables (taskName : string) (timeout : Z)
  (foreign : list (event_name * nat)) (n0 : nat).

#[local] Abbreviation WStart := (wwt_start taskName timeout foreign n0).
#[local] Abbreviation WWon := (wwt_won taskName timeout foreign n0).
#[local] Abbreviation WWinner := (wwt_winner taskName timeout n0).
#[local] Abbreviation WCompletes :=
  (wwt_completes_with call_function taskName timeout foreign n0).
#[local] Abbreviation WRun := (run call_function 0).

Lemma wwt_job_progress o s :
  WWon o s -> result_of s = None ->
  wwt_jobs_left (step call_function 0 Microtask s) < wwt_jobs_left s.
Proof.
  intros Hw Hr. destruct Hw; cbn -[run_reaction] in *; try discriminate.
  - rewrite run_race_pending. unfold wwt_jobs_left. cbn. rewrite length_app. cbn. lia.
  - destruct q1 as [|[r o'] q1]; cbn -[run_reaction].
    + rewrite (run_wwt_await taskName timeout n0) by done.
      unfold wwt_jobs_left. cbn. lia.
    + apply Forall_cons in H1 as [Hq H1]. cbn in Hq. subst r.
      unfold wwt_jobs_left. js. rewrite !length_app. cbn. lia.
Qed.

Lemma wwt_won_drain k o s :
  WWon o s -> wwt_jobs_left s <= k ->
  result_of (WRun (repeat Microtask k) s) = Some o.
Proof.
  revert s. induction k as [|k IH]; intros s Hw Hk.
  - apply (wwt_won_quiescent _ _ _ _ _ _ Hw).
    unfold wwt_jobs_left in Hk. destruct (microtasks s); [done|cbn in Hk; lia].
  - destruct (result_of s) as [x|] eqn:Hr.
    + destruct (wwt_won_observed _ _ _ _ _ _ _ Hw Hr) as (-> & _).
      by apply run_keeps_settled.
    + change (WRun (repeat Microtask (S k)) s)
        with (WRun (repeat Microtask k) (step call_function 0 Microtask s)).
      apply IH; [by apply step_wwt_won|].
      pose proof (wwt_job_progress o s Hw Hr). lia.
Qed.

Lemma wwt_winner_app tr tr' o :
  WWinner tr = Some o -> WWinner (tr ++ tr') = Some o.
Proof.
  induction tr as [|a tr IH]; cbn; [done|].
  by destruct (wwt_fires taskName timeout n0 a).
Qed.

Lemma wwt_won_frame o s :
  WWon o s ->
  emitters s = [foreign_subscriptions foreign] /\ arrays s = [] /\
  next_object s = S n0.
Proof. by intros []. Qed.

(** X10. Once the computation has settled or the timer has fired, the
    caller's promise does settle: whatever else has happened in the run,
    running as many promise jobs as are queued and one more settles it
    with the outcome of whichever came first. *)
Theorem waitWithTimeout_settles promise0 tr o :
  promise0 = Some o \/ (promise0 = None /\ WWinner tr = Some o) ->
  let s := WRun tr (WStart promise0) in
  result_of (WRun (tr ++ repeat Microtask (length (microtasks s) + 1)) (WStart promise0))
  = Some o.
Proof.
  intros Ho s. rewrite run_app. fold s. apply wwt_won_drain.
  - subst s. destruct Ho as [-> | [-> Hw]].
    + apply run_wwt_won, wwt_fired_won, wwt_start_settled.
    + pose proof (wwt_run_pending call_function taskName timeout foreign n0 tr) as H.
      by rewrite Hw in H.
  - unfold wwt_jobs_left. destruct (promise_state 3 s); lia.
Qed.

(** X11. The race of [waitWithTimeout] is decided once: an outcome the
    caller has observed stays as it is, and the first of the timer and
    the computation to come decides, whatever follows; a computation
    that settles after the timer has fired does not replace the Timeout
    error, nor does a timer replace the outcome of the computation. *)
Theorem waitWithTimeout_decided_once promise0 tr tr' :
  let s := WRun tr (WStart promise0) in
  let s' := WRun (tr ++ tr') (WStart promise0) in
  (forall x, result_of s = Some x -> result_of s' = Some x) /\
  (forall o, promise0 = None -> WWinner tr = Some o ->
     WWinner (tr ++ tr') = Some o /\
     forall x, result_of s' = Some x -> x = o).
Proof.
  intros s s'. subst s s'. split.
  - intros x Hx. rewrite run_app. by apply run_keeps_settled.
  - intros o -> Hwin. split; [by apply wwt_winner_app|].
    intros x Hx.
    pose proof (wwt_run_pending call_function taskName timeout foreign n0 (tr ++ tr'))
      as Hw.
    rewrite (wwt_winner_app tr tr' o Hwin) in Hw.
    by destruct (wwt_won_observed _ _ _ _ _ _ x Hw Hx) as (-> & _).
Qed.

(** X12. No listener is involved in [waitWithTimeout]: throughout every
    run the emitters are as they were before the call, no array is
    created, and the only calls made on the collaborators are, when the
    timeout is truthy ([if (timeout)]), one [setTimeout] followed by at
    most one [clearTimeout], and none when it is falsy. *)
Theorem waitWithTimeout_touches_timers_only promise0 tr :
  let s := WRun tr (WStart promise0) in
  emitters s = emitters (boot promise0 foreign n0) /\
  arrays s = [] /\
  (log s = (if truthy (VNum timeout) then [Eff_setTimeout 0 timeout] else []) \/
   log s = (if truthy (VNum timeout)
            then [Eff_setTimeout 0 timeout; Eff_clearTimeout (Some 0)] else [])).
Proof.
  intros s. subst s.
  assert (wwt_log0 timeout =
            (if truthy (VNum timeout) then [Eff_setTimeout 0 timeout] else [])
          /\ wwt_log0 timeout ++ wwt_finally_log timeout =
             (if truthy (VNum timeout)
              then [Eff_setTimeout 0 timeout; Eff_clearTimeout (Some 0)] else []))
    as [Hl Hf].
  { unfold wwt_log0, wwt_finally_log. by destruct (truthy (VNum timeout)). }
  destruct (wwt_reachable call_function taskName timeout foreign n0 promise0 tr)
    as [Heq | [o Hw]].
  - rewrite Heq, wwt_start_eq. cbn -[wwt_log0]. rewrite Hl. auto.
  - destruct (wwt_won_frame o _ Hw) as (-> & -> & _).
    destruct (wwt_won_effects _ _ _ _ _ _ Hw) as [[-> | ->] _].
    + rewrite Hl. auto.
    + rewrite Hf. auto.
Qed.

(** X13. A negative timeout arms the timer of [waitWithTimeout] as a
    positive one does, and the message of the Timeout error shows it
    with its sign (for an integer down to -2^53, where its text is a
    minus sign and its decimal digits). *)
Theorem waitWithTimeout_negative_timeout pre :
  (- 2 ^ 53 <= timeout < 0)%Z ->
  forallb wwt_quiet pre = true ->
  log (WStart None) = [Eff_setTimeout 0 timeout] /\
  WCompletes None (pre ++ [TimerFires 0])
    (Rejected (VError n0 TimeoutErrorClass
                 ("waiting for " +:+ taskName +:+ " failed: timeout "
                  +:+ number_to_string timeout +:+ "ms exceeded"))).
Proof.
  intros Ht Hpre. split.
  - rewrite wwt_start_eq. unfold wwt_log0. cbn.
    destruct (Z.eqb_spec timeout 0); [lia|done].
  - apply (wwt_scenario_completes _ _ _ _ _ pre (TimerFires 0)
             (Rejected (wwt_timeout_error taskName timeout n0)) Hpre).
    cbn. rewrite bool_decide_eq_true_2; [done|]. split; [done|lia].
Qed.

End WaitWithTimeoutMore.

Lemma waitWithTimeout_settles_witness :
  let tr := [ExternalSettles (Fulfilled (VNum 4)); TimerFires 0;
             ExternalSettles (Rejected aborted)] in
  let start := wwt_start "nav" 30 [] 0 None in
  let s := run demo_call 0 tr start in
  result_of (run demo_call 0 (tr ++ repeat Microtask (length (microtasks s) + 1)) start)
  = Some (Fulfilled (VNum 4)).
Proof.
  intros tr start s.
  apply (waitWithTimeout_settles demo_call "nav" 30 [] 0 None tr (Fulfilled (VNum 4))).
  right. split; reflexivity.
Defined.

Lemma waitWithTimeout_decided_once_witness :
  let tr := [TimerFires 0] in
  let tr' := [ExternalSettles (Fulfilled (VNum 4)); Microtask; Microtask; Microtask] in
  let timed_out := Rejected (VError 0 TimeoutErrorClass
                               "waiting for nav failed: timeout 30ms exceeded") in
  wwt_winner "nav" 30 0 (tr ++ tr') = Some timed_out /\
  forall x,
    result_of (run demo_call 0 (tr ++ tr') (wwt_start "nav" 30 [] 0 None)) = Some x ->
    x = timed_out.
Proof.
  intros tr tr' timed_out.
  destruct (waitWithTimeout_decided_once demo_call "nav" 30 [] 0 None tr tr')
    as [_ H].
  apply (H timed_out); reflexivity.
Defined.

Lemma waitWithTimeout_negative_timeout_witness :
  log (wwt_start "nav" (-5) [] 0 None) = [Eff_setTimeout 0 (-5)] /\
  wwt_completes_with demo_call "nav" (-5) [] 0 None ([Microtask] ++ [TimerFires 0])
    (Rejected (VError 0 TimeoutErrorClass
                 ("waiting for " +:+ "nav" +:+ " failed: timeout "
                  +:+ number_to_string (-5) +:+ "ms exceeded"))).
Proof.
  apply (waitWithTimeout_negative_timeout demo_call "nav" (-5) [] 0); [lia|reflexivity].
Defined.

Example negative_timeout_message :
  "waiting for " +:+ "nav" +:+ " failed: timeout " +:+ number_to_string (-5)
  +:+ "ms exceeded" = "waiting for nav failed: timeout -5ms exceeded".
Proof. reflexivity. Qed.

(** ** [evaluationString], [isString], [isNumber] and [assert]
    (helper.ts:30-42, 93-99, 160-163) *)

(** Arguments typed [any]: besides the values above, the wrapper objects
    [new String(s)] and [new Number(n)], and functions. *)
Inductive js_any :=
| Prim (v : value)
| StringObject (id : nat) (s : string)
| NumberObject (id : nat) (n : Z)
| FunctionObject (f : fn_ref).

(** [typeof obj === 'string' || obj instanceof String] *)
Definition isString (obj : js_any) : bool :=
  match obj with
  | Prim (VStr _) => true
  | StringObject _ _ => true
  | _ => false
  end.

(** [typeof obj === 'number' || obj instanceof Number] *)
Definition isNumber (obj : js_any) : bool :=
  match obj with
  | Prim (VNum _) => true
  | NumberObject _ _ => true
  | _ => false
  end.

(** ToBoolean on [any]: every object is truthy, also [new String("")]
    and [new Number(0)]. *)
Definition truthy_any (x : js_any) : bool :=
  match x with
  | Prim v => truthy v
  | StringObject _ _ | NumberObject _ _ | FunctionObject _ => true
  end.

(** [function assert(value, message?) { if (!value) throw new Error(message); }];
    the message of [new Error(undefined)] is empty. *)
Definition assert (value : js_any) (message : option string) : M unit :=
  if negb (truthy_any value) then
    e <- new_error ErrorClass (default "" message) ;;
    throw e
  else ret tt.

(** [Array.prototype.join]: elements that are [undefined] give the empty
    string. *)
Definition join (sep : string) (l : list (option string)) : string :=
  match l with
  | [] => ""
  | x :: l' => fold_left (fun acc y => acc +:+ sep +:+ default "" y) l' (default "" x)
  end.

Section EvaluationString.

(** The conversions of the language the function relies on:
    the string a template literal makes of a value (the source text, for
    a function) and [JSON.stringify], whose result is [undefined] for
    what JSON cannot represent.  The arguments are taken to be ones
    [JSON.stringify] accepts: it throws on a cyclic structure, on a
    BigInt and when a [toJSON] method throws, none of which [js_any]
    describes. *)
Variable ToString : js_any -> string.
Variable JSON_stringify : js_any -> option string.

Definition serializeArgument (arg : js_any) : option string :=
  if arg is Prim VUndefined then Some "undefined"
  else JSON_stringify arg.

Definition evaluationString (fun_ : js_any) (args : list js_any) : M js_any :=
  if isString fun_ then
    assert (Prim (VBool (Nat.eqb (length args) 0)))
           (Some "Cannot evaluate a string with arguments") ;;
    ret fun_
  else
    ret (Prim (VStr ("(" +:+ ToString fun_ +:+ ")("
                     +:+ join "," (map serializeArgument args) +:+ ")"))).

(** X14. [evaluationString] throws exactly when it is given a string (a
    primitive one or a [String] object) together with at least one
    argument; what it throws is then an [Error] whose message is
    "Cannot evaluate a string with arguments".  A string without
    arguments is returned as it is, and anything else gives the text of
    a call, the runtime state being untouched. *)
Theorem evaluationString_throws_iff fun_ args s :
  ((exists e s', evaluationString fun_ args s = (Throw e, s')) <->
   (isString fun_ = true /\ args <> [])) /\
  (forall e s',
     evaluationString fun_ args s = (Throw e, s') ->
     e = VError (next_object s) ErrorClass "Cannot evaluate a string with arguments") /\
  (isString fun_ = true -> evaluationString fun_ [] s = (Ok fun_, s)) /\
  (isString fun_ = false ->
   exists text, evaluationString fun_ args s = (Ok (Prim (VStr text)), s)).
Proof.
  unfold evaluationString. destruct (isString fun_) eqn:Hs.
  - destruct args as [|a args]; cbn.
    + split; [split|split; [|split]].
      * intros (e & s' & H). discriminate H.
      * intros [_ H]. by destruct H.
      * intros e s' H. discriminate H.
      * done.
      * done.
    + split; [split|split; [|split]].
      * done.
      * intros _. by eexists _, _.
      * intros e s' H. by injection H as <- _.
      * done.
      * done.
  - split; [split|split; [|split]].
    + intros (e & s' & H). discriminate H.
    + intros [H _]. discriminate H.
    + intros e s' H. discriminate H.
    + done.
    + intros _. by eexists.
Qed.

Lemma append_assoc (a b c : string) : (a +:+ b) +:+ c = a +:+ (b +:+ c).
Proof.
  induction a as [|x a IH]; [done|].
  change ((String x a +:+ b) +:+ c) with (String x ((a +:+ b) +:+ c)).
  change (String x a +:+ b +:+ c) with (String x (a +:+ b +:+ c)).
  by rewrite IH.
Qed.

Lemma join_step_prefix sep (l : list (option string)) a b :
  fold_left (fun acc y => acc +:+ sep +:+ default "" y) l (a +:+ b) =
  a +:+ fold_left (fun acc y => acc +:+ sep +:+ default "" y) l b.
Proof.
  revert b. induction l as [|y l IH]; intros b; [done|].
  change (fold_left ?f (y :: l) ?x) with (fold_left f l (f x y)).
  cbv beta. by rewrite append_assoc, IH.
Qed.

Lemma join_app sep (l1 l2 : list (option string)) :
  l1 <> [] -> l2 <> [] ->
  join sep (l1 ++ l2) = join sep l1 +:+ sep +:+ join sep l2.
Proof.
  destruct l1 as [|x l1]; [done|]. destruct l2 as [|y l2]; [done|]. intros _ _.
  unfold join. change ((x :: l1) ++ y :: l2) with (x :: (l1 ++ y :: l2)).
  cbv iota. rewrite fold_left_app.
  change (fold_left ?f (y :: l2) ?a) with (fold_left f l2 (f a y)). cbv beta.
  by rewrite !join_step_prefix.
Qed.

(** X15. An argument that is [undefined] is written [undefined] in the
    text of the call and every other one as [JSON.stringify] gives it,
    one entry per argument in the order given: the entries of the
    arguments [xs ++ ys] are those of [xs], a comma, and those of [ys]. *)
Theorem evaluationString_arguments f xs ys s :
  isString f = false -> xs <> [] -> ys <> [] ->
  evaluationString f (xs ++ ys) s =
  (Ok (Prim (VStr ("(" +:+ ToString f +:+ ")("
                   +:+ (join "," (map serializeArgument xs) +:+ ","
                        +:+ join "," (map serializeArgument ys))
                   +:+ ")"))), s) /\
  evaluationString f [Prim VUndefined] s =
  (Ok (Prim (VStr ("(" +:+ ToString f +:+ ")(undefined)"))), s).
Proof.
  intros Hs Hx Hy. unfold evaluationString. rewrite Hs. split; [|done].
  rewrite map_app, join_app; [done| |]; by intros ?%map_eq_nil.
Qed.

End EvaluationString.

Definition demo_to_string (x : js_any) : string := "f".
Definition demo_stringify (x : js_any) : option string :=
  match x with Prim (VNum n) => Some (number_to_string n) | _ => None end.

Lemma evaluationString_arguments_witness :
  evaluationString demo_to_string demo_stringify (FunctionObject 0)
    ([Prim (VNum 1); Prim VUndefined] ++ [FunctionObject 1; Prim (VNum 2)])
    registry_state =
  (Ok (Prim (VStr ("(" +:+ demo_to_string (FunctionObject 0) +:+ ")("
                   +:+ (join "," (map (serializeArgument demo_stringify)
                                      [Prim (VNum 1); Prim VUndefined]) +:+ ","
                        +:+ join "," (map (serializeArgument demo_stringify)
                                          [FunctionObject 1; Prim (VNum 2)]))
                   +:+ ")"))), registry_state) /\
  evaluationString demo_to_string demo_stringify (FunctionObject 0) [Prim VUndefined]
    registry_state =
  (Ok (Prim (VStr ("(" +:+ demo_to_string (FunctionObject 0) +:+ ")(undefined)"))),
   registry_state).
Proof.
  apply (evaluationString_arguments demo_to_string demo_stringify (FunctionObject 0)
           [Prim (VNum 1); Prim VUndefined] [FunctionObject 1; Prim (VNum 2)]
           registry_state);
    [reflexivity|discriminate|discriminate].
Defined.

Example evaluationString_text :
  fst (evaluationString demo_to_string demo_stringify (FunctionObject 0)
         [Prim (VNum 1); Prim VUndefined; FunctionObject 1; Prim (VNum 2)]
         registry_state) =
  Ok (Prim (VStr "(f)(1,undefined,,2)")).
Proof. reflexivity. Qed.
